(** * mcutil: address parsing, null-terminated strings and the RCON session

    A shallow embedding of [util.go] ([ParseAddress], [readNTString]) and of
    the RCON client ([NewRCON], [Dial], [Login], [Run], [Close],
    [readMessage] and the goroutine started by [Login]), followed by the
    properties of these functions.

    Go values are represented as follows.
    - [int32], [uint16], [int]: [Z], with the conversions written out
      ([GoInt.int32], [GoInt.uint32], [GoInt.uint16]).
    - [[]byte]: [list byte]; [string]: [string], a sequence of bytes in
      both languages.
    - [error]: the inductive type [error]; a function that returns an
      [error] returns a [result]: a value, a non-nil error or a panic.
    - [io.Reader]: [Stream.reader], what the [Read] calls to come will
      observe. A [Read] into a non-empty slice that returns no error
      returns at least one byte, as the connections and readers of the
      standard library do; a [Read] may return bytes together with an
      error; a stream that is exhausted reports [io.EOF].
    - [net.Conn]: the record [Net.Conn], a reader together with the bytes
      written so far and the outcomes of the writes, deadline settings and
      closes to come.
    - The goroutine started by [Login] is the function [pump], the first
      [n] iterations of its loop; a send on [Messages] is recorded in the
      list of the values sent. [Wire.pump_chan] is the same loop together
      with the receivers of the channel, which has no buffer: a send
      blocks when no receiver is left. *)

From Stdlib Require Import ZArith List Bool Lia.
From Stdlib.Strings Require Import String Ascii Byte.
Import ListNotations.

#[local] Open Scope string_scope.
#[local] Open Scope Z_scope.
#[local] Open Scope list_scope.

(** ** Fixed-width integers and the little-endian encoding *)

Module GoInt.

Definition MaxInt32 : Z := 2147483647.
Definition MinInt32 : Z := -2147483648.
Definition MaxUint16 : Z := 65535.

(** [uint32(v)]: the low 32 bits of [v]. *)
Definition uint32 (v : Z) : Z := v mod 2 ^ 32.

(** [uint16(v)]: the low 16 bits of [v]. *)
Definition uint16 (v : Z) : Z := v mod 2 ^ 16.

(** [int32(v)]: the low 32 bits of [v], read as two's complement. *)
Definition int32 (v : Z) : Z := (v + 2 ^ 31) mod 2 ^ 32 - 2 ^ 31.

(** [byte(v)]: the low 8 bits of [v]. *)
Definition byte_of_Z (v : Z) : byte :=
  match Byte.of_N (Z.to_N (v mod 256)) with
  | Some b => b
  | None => x00
  end.

Definition Z_of_byte (b : byte) : Z := Z.of_N (Byte.to_N b).

(** [binary.LittleEndian.PutUint32(b, uint32(v))]. *)
Definition PutUint32 (v : Z) : list byte :=
  [ byte_of_Z (uint32 v);
    byte_of_Z (Z.shiftr (uint32 v) 8);
    byte_of_Z (Z.shiftr (uint32 v) 16);
    byte_of_Z (Z.shiftr (uint32 v) 24) ].

(** [binary.LittleEndian.Uint32(b)]; [b] has at least four bytes wherever
    the code calls it, a shorter slice panics in Go ([None]). *)
Definition Uint32 (b : list byte) : option Z :=
  match b with
  | b0 :: b1 :: b2 :: b3 :: _ =>
      Some (Z.lor (Z_of_byte b0)
             (Z.lor (Z.shiftl (Z_of_byte b1) 8)
               (Z.lor (Z.shiftl (Z_of_byte b2) 16)
                      (Z.shiftl (Z_of_byte b3) 24))))
  | _ => None
  end.

(** [binary.LittleEndian.Uint16(b)]: only [b[0]] and [b[1]] are read. *)
Definition Uint16 (b : list byte) : option Z :=
  match b with
  | b0 :: b1 :: _ => Some (Z.lor (Z_of_byte b0) (Z.shiftl (Z_of_byte b1) 8))
  | _ => None
  end.

End GoInt.

(** ** Errors *)

Inductive error : Type :=
  (* sentinel errors of the package *)
  | ErrNotConnected
  | ErrAlreadyLoggedIn
  | ErrNotAuthenticated
  | ErrInvalidPassword
  (* fmt.Errorf("rcon: received unexpected request ID (expected=0, received=%d)") *)
  | ErrUnexpectedRequestID (expected received : Z)
  (* fmt.Errorf("rcon: received unexpected packet type (expected=0x.., received=0x%02X)") *)
  | ErrUnexpectedPacketType (expected received : Z)
  (* fmt.Errorf("address: cannot parse \"%s\"") *)
  | ErrCannotParse (address : string)
  (* strconv.NumError{Func: "ParseUint", Num, Err: strconv.ErrSyntax / ErrRange} *)
  | ErrSyntax (num : string)
  | ErrRange (num : string)
  (* io.EOF, io.ErrUnexpectedEOF, io.ErrShortWrite *)
  | EOF
  | ErrUnexpectedEOF
  | ErrShortWrite
  (* any other error of the transport (timeout, reset, ...) *)
  | ErrNet (code : nat).

Definition error_eqb (a b : error) : bool :=
  match a, b with
  | ErrNotConnected, ErrNotConnected => true
  | ErrAlreadyLoggedIn, ErrAlreadyLoggedIn => true
  | ErrNotAuthenticated, ErrNotAuthenticated => true
  | ErrInvalidPassword, ErrInvalidPassword => true
  | ErrUnexpectedRequestID e r, ErrUnexpectedRequestID e' r' => Z.eqb e e' && Z.eqb r r'
  | ErrUnexpectedPacketType e r, ErrUnexpectedPacketType e' r' => Z.eqb e e' && Z.eqb r r'
  | ErrCannotParse s, ErrCannotParse s' => String.eqb s s'
  | ErrSyntax s, ErrSyntax s' => String.eqb s s'
  | ErrRange s, ErrRange s' => String.eqb s s'
  | EOF, EOF => true
  | ErrUnexpectedEOF, ErrUnexpectedEOF => true
  | ErrShortWrite, ErrShortWrite => true
  | ErrNet c, ErrNet c' => Nat.eqb c c'
  | _, _ => false
  end.

(** ** Readers: what [Read] calls on a stream will observe *)

Module Stream.

(** One arrival on the stream: a non-empty run of bytes that a single
    [Read] can return; an error reported by a [Read] that returns no
    byte; or a non-empty run of bytes whose last byte a [Read] returns
    together with an error ([n > 0] and [err != nil], which [io.Reader]
    allows). *)
Inductive rd_event : Type :=
  | Data (b : byte) (bs : list byte)
  | Fail (e : error)
  | DataErr (b : byte) (bs : list byte) (e : error).

(** The future of a stream; when it is exhausted the peer has closed the
    stream and every [Read] reports [io.EOF]. *)
Definition reader : Type := list rd_event.

Definition requeue (bs : list byte) (r : reader) : reader :=
  match bs with
  | [] => r
  | c :: cs => Data c cs :: r
  end.

(** What is left of a run that ends with the error [e]. *)
Definition requeue_err (bs : list byte) (e : error) (r : reader) : reader :=
  match bs with
  | [] => Fail e :: r
  | c :: cs => DataErr c cs e :: r
  end.

(** [n, err := r.Read(data)] with [len(data) = k]: the bytes stored at the
    front of [data] (so [n] is their number), the error and the reader
    afterwards. A read into an empty slice returns [0, nil]. *)
Definition Read (k : nat) (r : reader) : list byte * option error * reader :=
  match k with
  | O => ([], None, r)
  | S _ =>
      match r with
      | [] => ([], Some EOF, [])
      | Fail e :: r' => ([], Some e, r')
      | Data b bs :: r' =>
          (firstn k (b :: bs), None, requeue (skipn k (b :: bs)) r')
      | DataErr b bs e :: r' =>
          if (k <? List.length (b :: bs))%nat
          then (firstn k (b :: bs), None, requeue_err (skipn k (b :: bs)) e r')
          else (b :: bs, Some e, r')
      end
  end.

(** [make([]byte, k)] after [Read] stored [got] at its front. *)
Definition filled (k : nat) (got : list byte) : list byte :=
  got ++ repeat x00 (k - List.length got).

(** Number of [Read] calls a reader can serve before it is exhausted. *)
Fixpoint pending (r : reader) : nat :=
  match r with
  | [] => O
  | Data _ bs :: r' => S (List.length bs + pending r')
  | Fail _ :: r' => S (pending r')
  | DataErr _ bs _ :: r' => S (List.length bs + pending r')
  end.

(** A stream that delivers the given runs of bytes, then [rest]. *)
Fixpoint arrivals (chunks : list (byte * list byte)) (rest : reader) : reader :=
  match chunks with
  | [] => rest
  | (b, bs) :: cs => Data b bs :: arrivals cs rest
  end.

Fixpoint contents (chunks : list (byte * list byte)) : list byte :=
  match chunks with
  | [] => []
  | (b, bs) :: cs => b :: bs ++ contents cs
  end.

(** [delivers r l r']: the next bytes of [r] are [l], whatever the runs
    they arrive in; every one of them is handed over with a nil error and
    no error comes before them; [r'] is the stream after them. *)
Inductive delivers : reader -> list byte -> reader -> Prop :=
  | delivers_nil (r : reader) : delivers r [] r
  | delivers_byte (b : byte) (bs : list byte) (r : reader)
                  (l : list byte) (r' : reader) :
      delivers (requeue bs r) l r' ->
      delivers (Data b bs :: r) (b :: l) r'.

End Stream.

(** ** util.go *)

Module Util.
Import Stream.

(** *** [addressRegExp] = [^([A-Za-z0-9.]+)(?::(\d{1,5}))?$] *)

(** [\d] *)
Definition isDigit (c : ascii) : bool :=
  let n := nat_of_ascii c in (48 <=? n)%nat && (n <=? 57)%nat.

(** [[A-Za-z0-9.]] *)
Definition isHostChar (c : ascii) : bool :=
  let n := nat_of_ascii c in
  ((65 <=? n)%nat && (n <=? 90)%nat)
  || ((97 <=? n)%nat && (n <=? 122)%nat)
  || isDigit c
  || (n =? 46)%nat.

Fixpoint all (p : ascii -> bool) (s : string) : bool :=
  match s with
  | EmptyString => true
  | String c s' => p c && all p s'
  end.

(** The language of the expression, with its two capture groups: the text
    is [host] alone (group 2 does not take part and reads as the empty
    string) or [host], a colon and [port]. *)
Inductive addressRegExp_matches : string -> string -> string -> Prop :=
  | match_host (host : string) :
      host <> "" -> all isHostChar host = true ->
      addressRegExp_matches host host ""
  | match_host_port (host port : string) :
      host <> "" -> all isHostChar host = true ->
      (1 <= String.length port <= 5)%nat -> all isDigit port = true ->
      addressRegExp_matches (host ++ ":" ++ port)%string host port.

(** Value of a run of decimal digits read after the value [n]. *)
Fixpoint decimal_from (n : Z) (s : string) : Z :=
  match s with
  | EmptyString => n
  | String c s' => decimal_from (n * 10 + (Z.of_nat (nat_of_ascii c) - 48)) s'
  end.

Definition decimal (s : string) : Z := decimal_from 0 s.

(** What follows the longest prefix: nothing, or a character outside the
    class. *)
Definition stops (p : ascii -> bool) (rest : string) : Prop :=
  match rest with
  | EmptyString => True
  | String c _ => p c = false
  end.

(** Longest prefix of host characters and what follows it. *)
Fixpoint span (p : ascii -> bool) (s : string) : string * string :=
  match s with
  | EmptyString => ("", "")
  | String c s' =>
      if p c then let (a, b) := span p s' in (String c a, b) else ("", s)
  end.

(** [addressRegExp.FindAllStringSubmatch(address, -1)]: the expression is
    anchored at both ends, so there is at most one match; a match is the
    list [whole; group 1; group 2]. *)
Definition FindAllStringSubmatch (address : string) : list (list string) :=
  let (host, rest) := span isHostChar address in
  match host with
  | EmptyString => []
  | String _ _ =>
      match rest with
      | EmptyString => [[address; host; ""]]
      | String c port =>
          if Ascii.eqb c ":"
             && (1 <=? String.length port)%nat && (String.length port <=? 5)%nat
             && all isDigit port
          then [[address; host; port]]
          else []
      end
  end.

(** *** [strconv.ParseUint(s, 10, 16)] *)

Definition cutoff : Z := 18446744073709551615 / 10 + 1.

(** The loop over the bytes of [s], entered with the value [n] of the
    digits read so far; [s0] is the whole text, quoted in the errors. The
    base is 10 and the size 16 bits, so [maxVal] is [MaxUint16]. *)
Fixpoint ParseUint_loop (s0 : string) (s : string) (n : Z) : Z * option error :=
  match s with
  | EmptyString => (n, None)
  | String c s' =>
      if isDigit c then
        let d := Z.of_nat (nat_of_ascii c) - 48 in
        if cutoff <=? n then (GoInt.MaxUint16, Some (ErrRange s0))
        else
          let n1 := n * 10 + d in
          if GoInt.MaxUint16 <? n1 then (GoInt.MaxUint16, Some (ErrRange s0))
          else ParseUint_loop s0 s' n1
      else (0, Some (ErrSyntax s0))
  end.

Definition ParseUint (s : string) : Z * option error :=
  match s with
  | EmptyString => (0, Some (ErrSyntax s))
  | _ => ParseUint_loop s s 0
  end.

(** *** [ParseAddress] *)

Definition nth_string (i : nat) (l : list string) : string := nth i l "".

Definition ParseAddress (address : string) (defaultPort : Z)
  : string * Z * option error :=
  let matches := FindAllStringSubmatch address in
  match matches with
  | [] => ("", defaultPort, Some (ErrCannotParse address))
  | m0 :: _ =>
      if (List.length m0 <? 3)%nat || (String.length (nth_string 2 m0) <? 1)%nat
      then (nth_string 1 m0, defaultPort, None)
      else
        let (port, err) := ParseUint (nth_string 2 m0) in
        match err with
        | Some e => ("", defaultPort, Some e)
        | None => (nth_string 1 m0, GoInt.uint16 port, None)
        end
  end.

(** *** [readNTString] *)

(** The [for] loop; [fuel] bounds the number of iterations, [None] means
    the bound was too small. *)
Fixpoint readNTString_loop (fuel : nat) (r : reader) (result : list byte)
  : option (string * option error * reader) :=
  match fuel with
  | O => None
  | S fuel' =>
      let '(got, err, r') := Read 1 r in
      let data := filled 1 got in
      match err with
      | Some e => Some ("", Some e, r')
      | None =>
          if Byte.eqb (hd x00 data) x00
          then Some (string_of_list_byte result, None, r')
          else readNTString_loop fuel' r' (result ++ data)
      end
  end.

(** Every iteration that does not leave the loop uses up one pending
    byte or event of the reader. *)
Definition readNTString (r : reader) : option (string * option error * reader) :=
  readNTString_loop (S (pending r)) r [].

End Util.

(** ** The transport: [net.Conn] *)

Module Net.
Import Stream.

(** Outcome of one [Write] call: everything was sent, or [n] bytes were
    sent before the error [e]. *)
Inductive wr_event : Type :=
  | WriteOk
  | WriteFail (n : nat) (e : error).

(** A connection: the bytes already put on the wire, and what the peer
    and the operating system will answer to the calls to come. An
    exhausted plan means that the remaining calls succeed. *)
Record Conn : Type := mkConn {
  incoming : reader;
  outgoing : list byte;
  writes : list wr_event;
  deadlines : list (option error);
  closes : list (option error)
}.

Definition set_incoming (i : reader) (c : Conn) : Conn :=
  mkConn i (outgoing c) (writes c) (deadlines c) (closes c).

(** Result of a computation on the connection: a value, a non-nil
    [error], or a run-time panic. *)
Inductive result (A : Type) : Type :=
  | Val (a : A)
  | Raise (e : error)
  | Crash.
Arguments Val {A} a.
Arguments Raise {A} e.
Arguments Crash {A}.

Definition io (A : Type) : Type := Conn -> result A * Conn.

Definition ret {A} (a : A) : io A := fun c => (Val a, c).
Definition raise {A} (e : error) : io A := fun c => (Raise e, c).
Definition crash {A} : io A := fun c => (Crash, c).

Definition bind {A B} (m : io A) (k : A -> io B) : io B :=
  fun c =>
    match m c with
    | (Val a, c') => k a c'
    | (Raise e, c') => (Raise e, c')
    | (Crash, c') => (Crash, c')
    end.

Notation "x <- m ;; k" := (bind m (fun x => k))
  (at level 61, m at next level, right associativity).

(** [n, err := conn.Read(data)] with [len(data) = k]; the value is the
    bytes stored at the front of [data], so [n] is their number. *)
Definition conn_Read (k : nat) : io (list byte) :=
  fun c =>
    let '(got, err, i) := Read k (incoming c) in
    (match err with Some e => Raise e | None => Val got end, set_incoming i c).

(** The loop of [io.ReadAtLeast(r, buf, len(buf))], which is
    [io.ReadFull]: [want] bytes are still missing, [got] were read. *)
Fixpoint ReadFull_loop (fuel want : nat) (got : list byte) (i : reader)
  : option (list byte * option error * reader) :=
  match want with
  | O => Some (got, None, i)
  | S _ =>
      match fuel with
      | O => None
      | S fuel' =>
          let '(bs, err, i') := Read want i in
          match err with
          | Some e =>
              if (List.length bs <? want)%nat then
                Some (got ++ bs,
                      Some (if (0 <? List.length (got ++ bs))%nat && error_eqb e EOF
                            then ErrUnexpectedEOF else e),
                      i')
              else Some (got ++ bs, None, i')
          | None => ReadFull_loop fuel' (want - List.length bs) (got ++ bs) i'
          end
      end
  end.

(** [io.ReadFull(conn, buf)] with [len(buf) = k]: every [Read] without an
    error returns at least one byte, so [k] iterations are enough. *)
Definition ReadFull (k : nat) : io (list byte) :=
  fun c =>
    match ReadFull_loop k k [] (incoming c) with
    | Some (got, Some e, i) => (Raise e, set_incoming i c)
    | Some (got, None, i) => (Val got, set_incoming i c)
    | None => (Crash, c)
    end.

(** [binary.Read(conn, binary.LittleEndian, &v)] for [v] an [int32]. *)
Definition binary_Read_int32 : io Z :=
  bs <- ReadFull 4 ;;
  match GoInt.Uint32 bs with
  | Some v => ret (GoInt.int32 v)
  | None => crash
  end.

(** [make([]byte, n)]: panics when [n] is negative. *)
Definition make (n : Z) : io nat :=
  if n <? 0 then crash else ret (Z.to_nat n).

(** [conn.Write(b)]. *)
Definition conn_Write (b : list byte) : io unit :=
  fun c =>
    match writes c with
    | [] => (Val tt, mkConn (incoming c) (outgoing c ++ b) [] (deadlines c) (closes c))
    | WriteOk :: w =>
        (Val tt, mkConn (incoming c) (outgoing c ++ b) w (deadlines c) (closes c))
    | WriteFail n e :: w =>
        (Raise e, mkConn (incoming c) (outgoing c ++ firstn n b) w (deadlines c) (closes c))
    end.

(** [io.Copy(conn, buf)] for [buf] a [*bytes.Buffer]: [buf.WriteTo(conn)],
    a single [Write] of the whole buffer when it is not empty. *)
Definition io_Copy (buf : list byte) : io unit :=
  match buf with
  | [] => ret tt
  | _ :: _ => conn_Write buf
  end.

(** [conn.SetDeadline(t)] and [conn.SetReadDeadline(t)]. *)
Definition conn_SetDeadline : io unit :=
  fun c =>
    match deadlines c with
    | [] => (Val tt, c)
    | None :: d => (Val tt, mkConn (incoming c) (outgoing c) (writes c) d (closes c))
    | Some e :: d => (Raise e, mkConn (incoming c) (outgoing c) (writes c) d (closes c))
    end.

(** [conn.Close()]. *)
Definition conn_Close : io unit :=
  fun c =>
    match closes c with
    | [] => (Val tt, c)
    | None :: cl => (Val tt, mkConn (incoming c) (outgoing c) (writes c) (deadlines c) cl)
    | Some e :: cl => (Raise e, mkConn (incoming c) (outgoing c) (writes c) (deadlines c) cl)
    end.

(** *** [bytes.Buffer] as the bytes written to it *)

Definition binary_Write_int32 (buf : list byte) (v : Z) : list byte :=
  buf ++ GoInt.PutUint32 v.
Definition buf_Write (buf : list byte) (b : list byte) : list byte := buf ++ b.
Definition buf_WriteByte (buf : list byte) (b : byte) : list byte := buf ++ [b].

(** The next [Write] on the transport succeeds. *)
Definition write_succeeds (c : Conn) : Prop :=
  match writes c with
  | WriteFail _ _ :: _ => False
  | _ => True
  end.

(** A computation that only reads: it puts nothing on the wire and
    uses up no outcome planned for the writes. *)
Definition quiet {A} (m : io A) : Prop :=
  forall c, outgoing (snd (m c)) = outgoing c /\ writes (snd (m c)) = writes c.

End Net.

(** ** The RCON client *)

Module RCON.
Import Stream Net.

(** The fields of the Go struct ([runTrigger] is never used and is left
    out), the state of the [Messages] channel, and what the process does
    besides: the goroutines started, the lines printed, the transports
    closed. *)
Record RCONClient : Type := mkRCON {
  conn : option Conn;
  Messages : list string;        (* values sent on the channel, oldest first *)
  Messages_closed : bool;        (* whether close(Messages) was executed *)
  authSuccess : bool;
  requestID : Z;
  pumps : nat;                   (* goroutines started by Login *)
  stdout : list error;           (* errors printed by fmt.Println *)
  closedConns : list Conn        (* transports closed, most recent first *)
}.

Definition NewRCON : RCONClient :=
  mkRCON None [] false false 0 O [] [].

Definition set_conn (v : option Conn) (r : RCONClient) : RCONClient :=
  mkRCON v (Messages r) (Messages_closed r) (authSuccess r) (requestID r)
         (pumps r) (stdout r) (closedConns r).
Definition set_authSuccess (v : bool) (r : RCONClient) : RCONClient :=
  mkRCON (conn r) (Messages r) (Messages_closed r) v (requestID r)
         (pumps r) (stdout r) (closedConns r).
Definition set_requestID (v : Z) (r : RCONClient) : RCONClient :=
  mkRCON (conn r) (Messages r) (Messages_closed r) (authSuccess r) v
         (pumps r) (stdout r) (closedConns r).
(** [r.Messages <- v] once a receiver has taken the value: the channel
    has no buffer and the send does not return before ([Wire.pump_chan]
    is the loop with a send that can block). *)
Definition send_Messages (v : string) (r : RCONClient) : RCONClient :=
  mkRCON (conn r) (Messages r ++ [v]) (Messages_closed r) (authSuccess r)
         (requestID r) (pumps r) (stdout r) (closedConns r).
Definition go_pump (r : RCONClient) : RCONClient :=
  mkRCON (conn r) (Messages r) (Messages_closed r) (authSuccess r)
         (requestID r) (S (pumps r)) (stdout r) (closedConns r).
Definition Println (e : error) (r : RCONClient) : RCONClient :=
  mkRCON (conn r) (Messages r) (Messages_closed r) (authSuccess r)
         (requestID r) (pumps r) (stdout r ++ [e]) (closedConns r).
Definition note_closed (c : Conn) (r : RCONClient) : RCONClient :=
  mkRCON (conn r) (Messages r) (Messages_closed r) (authSuccess r)
         (requestID r) (pumps r) (stdout r) (c :: closedConns r).

(** [Dial]: [dialed] is what [net.DialTimeout] returns for the host, the
    port and the timeout given. *)
Definition Dial (dialed : Conn + error) (r : RCONClient)
  : result unit * RCONClient :=
  match dialed with
  | inr e => (Raise e, r)
  | inl c =>
      match conn_SetDeadline c with
      | (Val _, c') => (Val tt, set_conn (Some c') r)
      | (Raise e, _) => (Raise e, r)
      | (Crash, _) => (Crash, r)
      end
  end.

(** The request packet built in the buffer by [Login]. *)
Definition Login_packet (password : string) : list byte :=
  let buf := [] in
  let buf := binary_Write_int32 buf (GoInt.int32 (10 + Z.of_nat (String.length password))) in
  let buf := binary_Write_int32 buf (GoInt.int32 0) in
  let buf := binary_Write_int32 buf (GoInt.int32 3) in
  let buf := buf_Write buf (list_byte_of_string password ++ [x00]) in
  let buf := buf_WriteByte buf x00 in
  buf.

(** The response read by [Login]. *)
Definition Login_response : io unit :=
  packetLength <- binary_Read_int32 ;;
  requestID <- binary_Read_int32 ;;
  if requestID =? -1 then raise ErrInvalidPassword
  else if negb (requestID =? 0) then raise (ErrUnexpectedRequestID 0 requestID)
  else
    packetType <- binary_Read_int32 ;;
    if negb (packetType =? 2) then raise (ErrUnexpectedPacketType 2 packetType)
    else
      n <- make (GoInt.int32 (packetLength - 8)) ;;
      _ <- conn_Read n ;;
      ret tt.

Definition Login (password : string) (r : RCONClient)
  : result unit * RCONClient :=
  match conn r with
  | None => (Raise ErrNotConnected, r)
  | Some c =>
      if authSuccess r then (Raise ErrAlreadyLoggedIn, r)
      else
        match (_ <- io_Copy (Login_packet password) ;; Login_response) c with
        | (Val _, c1) =>
            let r1 := set_authSuccess true (set_conn (Some c1) r) in
            match conn_SetDeadline c1 with
            | (Val _, c2) => (Val tt, go_pump (set_conn (Some c2) r1))
            | (Raise e, c2) => (Raise e, set_conn (Some c2) r1)
            | (Crash, c2) => (Crash, set_conn (Some c2) r1)
            end
        | (Raise e, c1) => (Raise e, set_conn (Some c1) r)
        | (Crash, c1) => (Crash, set_conn (Some c1) r)
        end
  end.

(** The command packet built in the buffer by [Run]. *)
Definition Run_packet (requestID : Z) (command : string) : list byte :=
  let buf := [] in
  let buf := binary_Write_int32 buf (GoInt.int32 (10 + Z.of_nat (String.length command))) in
  let buf := binary_Write_int32 buf requestID in
  let buf := binary_Write_int32 buf (GoInt.int32 2) in
  let buf := buf_Write buf (list_byte_of_string command ++ [x00]) in
  let buf := buf_WriteByte buf x00 in
  buf.

Definition Run (command : string) (r : RCONClient)
  : result unit * RCONClient :=
  match conn r with
  | None => (Raise ErrNotConnected, r)
  | Some c =>
      if negb (authSuccess r) then (Raise ErrNotAuthenticated, r)
      else
        let r := set_requestID (GoInt.int32 (requestID r + 1)) r in
        let (res, c') := io_Copy (Run_packet (requestID r) command) c in
        (res, set_conn (Some c') r)
  end.

Definition Close (r : RCONClient) : result unit * RCONClient :=
  let r := set_authSuccess false r in
  let r := set_requestID 0 r in
  match conn r with
  | Some c =>
      match conn_Close c with
      | (Val _, c') => (Val tt, set_conn None (note_closed c' r))
      | (Raise e, c') => (Raise e, set_conn (Some c') r)
      | (Crash, c') => (Crash, set_conn (Some c') r)
      end
  | None => (Val tt, set_conn None r)
  end.

(** The frame read by [readMessage]: [Some] payload when one is to be
    sent on [Messages], [None] when the function returns [nil] before. *)
Definition readMessage_frame : io (option string) :=
  got <- conn_Read 4 ;;
  if (List.length got <? 4)%nat then ret None
  else
    match GoInt.Uint16 (filled 4 got) with
    | None => crash
    | Some u =>
        let packetLength := GoInt.int32 u in
        got <- conn_Read 4 ;;
        if (List.length got <? 4)%nat then ret None
        else
          packetType <- binary_Read_int32 ;;
          if negb (packetType =? 2)
          then raise (ErrUnexpectedPacketType 0 packetType)
          else
            k <- make (GoInt.int32 (packetLength - 8)) ;;
            got <- conn_Read k ;;
            if (List.length got <? 1)%nat then ret None
            else ret (Some (string_of_list_byte (filled k got)))
    end.

(** [readMessage]; calling [Read] through a nil [r.conn] panics. *)
Definition readMessage (r : RCONClient) : result unit * RCONClient :=
  match conn r with
  | None => (Crash, r)
  | Some c =>
      match readMessage_frame c with
      | (Val (Some msg), c') => (Val tt, send_Messages msg (set_conn (Some c') r))
      | (Val None, c') => (Val tt, set_conn (Some c') r)
      | (Raise e, c') => (Raise e, set_conn (Some c') r)
      | (Crash, c') => (Crash, set_conn (Some c') r)
      end
  end.

(** The goroutine started by [Login] is [for { body }]: the loop has no
    [break] and no [return], only a panic ends it. *)
Inductive pump_status : Type := Looping | Panicked.

Definition pump_body (r : RCONClient) : pump_status * RCONClient :=
  match readMessage r with
  | (Val _, r') => (Looping, r')
  | (Raise e, r') => (Looping, Println e r')
  | (Crash, r') => (Panicked, r')
  end.

(** The first [n] iterations of the loop. *)
Fixpoint pump (n : nat) (r : RCONClient) : pump_status * RCONClient :=
  match n with
  | O => (Looping, r)
  | S n' =>
      match pump_body r with
      | (Looping, r') => pump n' r'
      | (Panicked, r') => (Panicked, r')
      end
  end.

(** *** Notions used to state the properties *)

(** The states of a session. *)
Definition Disconnected (r : RCONClient) : Prop := conn r = None.
Definition Connected (r : RCONClient) : Prop :=
  conn r <> None /\ authSuccess r = false.
Definition Authenticated (r : RCONClient) : Prop :=
  conn r <> None /\ authSuccess r = true.

(** The bytes the session has put on the wire of its transport. *)
Definition wire (r : RCONClient) : list byte :=
  match conn r with
  | Some c => outgoing c
  | None => []
  end.

(** The length a receiver reads from the first four bytes of a packet
    with [binary.Read] into an [int32]. *)
Definition declared_length (packet : list byte) : option Z :=
  option_map GoInt.int32 (GoInt.Uint32 packet).

(** [p] copies of [s], one after the other. *)
Fixpoint replicate (p : positive) (s : string) : string :=
  match p with
  | xH => s
  | xO p' => replicate p' (s ++ s)
  | xI p' => (s ++ replicate p' (s ++ s))%string
  end.

(** What an iteration of the goroutine leaves alone: the flag, the
    counter, the goroutines, the state of the channel, and whether there
    is a transport. *)
Definition same_session (r r' : RCONClient) : Prop :=
  authSuccess r' = authSuccess r
  /\ requestID r' = requestID r
  /\ pumps r' = pumps r
  /\ Messages_closed r' = Messages_closed r
  /\ (conn r' = None <-> conn r = None).

(** The fields that decide what [Login] and [Run] do. *)
Definition session_fields (r : RCONClient) : option Conn * bool * Z :=
  (conn r, authSuccess r, requestID r).

(** The session after [p] more calls of [Run]. *)
Definition after_runs (p : positive) (r : RCONClient) : RCONClient :=
  Pos.iter (fun r => snd (Run "" r)) r p.

(** The states a session goes through: a new client, then calls of the
    four methods with any arguments and any behaviour of the network,
    and iterations of the goroutine once [Login] has started one. *)
Inductive reachable : RCONClient -> Prop :=
  | reach_NewRCON : reachable NewRCON
  | reach_Dial dialed r : reachable r -> reachable (snd (Dial dialed r))
  | reach_Login password r : reachable r -> reachable (snd (Login password r))
  | reach_Run command r : reachable r -> reachable (snd (Run command r))
  | reach_Close r : reachable r -> reachable (snd (Close r))
  | reach_pump r r' :
      reachable r -> (0 < pumps r)%nat -> pump_body r = (Looping, r') ->
      reachable r'.

(** What the program does next: a call of one of the four methods by
    the caller, or one iteration of a goroutine that [Login] started. *)
Inductive event : Type :=
  | CallDial (dialed : Conn + error)
  | CallLogin (password : string)
  | CallRun (command : string)
  | CallClose
  | Iterate.

(** What is observed of it: the value returned, how the iteration ended,
    or nothing when no goroutine has been started. *)
Inductive observed : Type :=
  | Returned (res : result unit)
  | Iterated (s : pump_status)
  | NoGoroutine.

Definition step (ev : event) (r : RCONClient) : observed * RCONClient :=
  match ev with
  | CallDial dialed => let (res, r') := Dial dialed r in (Returned res, r')
  | CallLogin password => let (res, r') := Login password r in (Returned res, r')
  | CallRun command => let (res, r') := Run command r in (Returned res, r')
  | CallClose => let (res, r') := Close r in (Returned res, r')
  | Iterate =>
      match pumps r with
      | O => (NoGoroutine, r)
      | S _ => let (s, r') := pump_body r in (Iterated s, r')
      end
  end.

Fixpoint steps (evs : list event) (r : RCONClient) : list observed * RCONClient :=
  match evs with
  | [] => ([], r)
  | ev :: evs' =>
      let (o, r1) := step ev r in
      let (os, r2) := steps evs' r1 in
      (o :: os, r2)
  end.

End RCON.

(** ** The address given to the dialer *)

Module Fmt.

(** The digit [d], for [0 <= d <= 9]. *)
Definition digit (d : Z) : ascii := ascii_of_nat (48 + Z.to_nat d).

(** The verb [%d] of [fmt.Sprintf] on an unsigned number: the digits are
    produced from the right, [acc] holds those already written. *)
Fixpoint FormatUint_loop (fuel : nat) (u : Z) (acc : string) : string :=
  match fuel with
  | O => acc
  | S fuel' =>
      if u <? 10 then String (digit u) acc
      else FormatUint_loop fuel' (u / 10) (String (digit (u mod 10)) acc)
  end.

(** A [uint64] has at most twenty digits. *)
Definition FormatUint (u : Z) : string := FormatUint_loop 20 u "".

(** [fmt.Sprintf("%s:%d", host, port)], the address [Dial] hands to
    [net.DialTimeout]. *)
Definition dial_address (host : string) (port : Z) : string :=
  (host ++ ":" ++ FormatUint port)%string.

End Fmt.

(** ** Frames, segments and sequences of calls *)

Module Wire.
Import Stream Net RCON.

(** A frame as the peer writes it: length, request ID, type, payload. *)
Definition response (length requestID type : Z) (payload : list byte) : list byte :=
  GoInt.PutUint32 length ++ GoInt.PutUint32 requestID
    ++ GoInt.PutUint32 type ++ payload.

(** A command response whose length field is right, as [readMessage]
    expects it: type 2, length 8 plus the payload. *)
Definition frame (requestID : Z) (payload : list byte) : list byte :=
  response (8 + Z.of_nat (List.length payload)) requestID 2 payload.

(** Each frame arrives as one segment, then [rest]. *)
Definition segments (frames : list (list byte)) (rest : reader) : reader :=
  fold_right requeue rest frames.

(** The next change of a deadline on the transport succeeds. *)
Definition deadline_succeeds (c : Conn) : Prop :=
  match deadlines c with
  | Some _ :: _ => False
  | _ => True
  end.

(** A computation that touches nothing of the connection but the stream
    of incoming bytes. *)
Definition reads_only {A} (m : io A) : Prop :=
  forall c, exists i, snd (m c) = set_incoming i c.

(** What [readMessage] does with the payload once the header is read. *)
Definition payload_step (packetLength : Z) : io (option string) :=
  bind (make (GoInt.int32 (packetLength - 8)))
       (fun k =>
          bind (conn_Read k)
               (fun got =>
                  if (List.length got <? 1)%nat then ret None
                  else ret (Some (string_of_list_byte (filled k got))))).

(** [Run] for each command in turn. *)
Definition Run_all (commands : list string) (r : RCONClient) : RCONClient :=
  fold_left (fun r command => snd (Run command r)) commands r.

(** The bytes of the packets of these calls when the counter stands at
    [requestID]: for each command the length, the next request ID, the
    type 2, the command and two zero bytes. *)
Fixpoint packets (requestID : Z) (commands : list string) : list byte :=
  match commands with
  | [] => []
  | command :: rest =>
      (GoInt.PutUint32 (10 + Z.of_nat (String.length command))
       ++ GoInt.PutUint32 (requestID + 1) ++ GoInt.PutUint32 2
       ++ list_byte_of_string command ++ [x00] ++ [x00])
      ++ packets (requestID + 1) rest
  end.

(** The goroutine with the receivers of [Messages]. The channel is made
    by [make(chan string)] and has no buffer: the send in [readMessage]
    returns once a receiver has taken the value and blocks until then.
    [receives] is the number of values the rest of the program receives
    from the channel; the goroutine does [n] iterations unless it panics
    or blocks in a send before. *)
Inductive chan_status : Type :=
  | Running
  | Dead
  | Blocked (msg : string).

Fixpoint pump_chan (receives n : nat) (r : RCONClient) : chan_status * RCONClient :=
  match n with
  | O => (Running, r)
  | S n' =>
      match conn r with
      | None => (Dead, r)
      | Some c =>
          match readMessage_frame c with
          | (Val (Some msg), c') =>
              match receives with
              | O => (Blocked msg, set_conn (Some c') r)
              | S receives' =>
                  pump_chan receives' n' (send_Messages msg (set_conn (Some c') r))
              end
          | (Val None, c') => pump_chan receives n' (set_conn (Some c') r)
          | (Raise e, c') => pump_chan receives n' (Println e (set_conn (Some c') r))
          | (Crash, c') => (Dead, set_conn (Some c') r)
          end
      end
  end.

(** A character that can be part of a match of [addressRegExp]. *)
Definition isAddressChar (c : ascii) : bool :=
  Util.isHostChar c || Ascii.eqb c ":".

End Wire.

(** * Properties of the integer conversions *)

Module GoIntFacts.
Import GoInt.

Lemma Z_of_byte_range b : 0 <= Z_of_byte b < 256.
Proof.
  unfold Z_of_byte. pose proof (Byte.to_N_bounded b). lia.
Qed.

Lemma Z_of_byte_of_Z v : Z_of_byte (byte_of_Z v) = v mod 256.
Proof.
  unfold Z_of_byte, byte_of_Z.
  pose proof (Z.mod_pos_bound v 256 ltac:(lia)) as Hm.
  destruct (Byte.of_N (Z.to_N (v mod 256))) as [b|] eqn:E.
  - apply Byte.to_of_N in E. rewrite E. lia.
  - apply Byte.of_N_None_iff in E. lia.
Qed.

Lemma uint32_range v : 0 <= uint32 v < 2 ^ 32.
Proof. unfold uint32. apply Z.mod_pos_bound. lia. Qed.

Lemma int32_range v : MinInt32 <= int32 v <= MaxInt32.
Proof.
  unfold int32, MinInt32, MaxInt32.
  pose proof (Z.mod_pos_bound (v + 2 ^ 31) (2 ^ 32) ltac:(lia)). lia.
Qed.

Lemma int32_id v : MinInt32 <= v <= MaxInt32 -> int32 v = v.
Proof.
  unfold int32, MinInt32, MaxInt32. intros H.
  rewrite Z.mod_small; lia.
Qed.

Lemma uint32_int32 v : uint32 (int32 v) = uint32 v.
Proof.
  unfold uint32, int32.
  rewrite <- Zminus_mod_idemp_l.
  rewrite Z.mod_mod by lia.
  rewrite Zminus_mod_idemp_l. f_equal. lia.
Qed.

Lemma int32_uint32 v : int32 (uint32 v) = int32 v.
Proof.
  unfold uint32, int32. f_equal.
  rewrite Zplus_mod_idemp_l. reflexivity.
Qed.

(** The increment of an [int32] leaves no value fixed. *)
Lemma int32_succ_neq v : MinInt32 <= v <= MaxInt32 -> int32 (v + 1) <> v.
Proof.
  unfold MinInt32, MaxInt32. intros H.
  destruct (Z.eq_dec v 2147483647) as [->|Hne]; [vm_compute; discriminate|].
  rewrite int32_id; unfold MinInt32, MaxInt32; lia.
Qed.

Lemma PutUint32_length v : List.length (PutUint32 v) = 4%nat.
Proof. reflexivity. Qed.

Lemma PutUint32_int32 v : PutUint32 (int32 v) = PutUint32 v.
Proof. unfold PutUint32. now rewrite uint32_int32. Qed.

(** Four bytes of a value below [2^32] put it together again. *)
Lemma bytes_join a :
  0 <= a < 2 ^ 32 ->
  Z.lor (a mod 256)
    (Z.lor (Z.shiftl (Z.shiftr a 8 mod 256) 8)
      (Z.lor (Z.shiftl (Z.shiftr a 16 mod 256) 16)
             (Z.shiftl (Z.shiftr a 24 mod 256) 24))) = a.
Proof.
  intros Ha. apply Z.bits_inj'. intros n Hn.
  rewrite !Z.lor_spec.
  change 256 with (2 ^ 8).
  assert (Hhigh : 32 <= n -> Z.testbit a n = false).
  { intros H32. destruct (Z.eq_dec a 0) as [->|Hnz]; [apply Z.bits_0|].
    apply Z.bits_above_log2; [lia|].
    apply Z.lt_le_trans with 32; [|assumption].
    apply Z.log2_lt_pow2; lia. }
  destruct (Z.lt_ge_cases n 8) as [H8|H8].
  { rewrite Z.mod_pow2_bits_low by lia.
    rewrite !Z.shiftl_spec_low by lia. now rewrite !orb_false_r. }
  rewrite Z.mod_pow2_bits_high by lia.
  destruct (Z.lt_ge_cases n 16) as [H16|H16].
  { rewrite (Z.shiftl_spec _ 8) by lia.
    rewrite Z.mod_pow2_bits_low by lia.
    rewrite Z.shiftr_spec by lia.
    rewrite !Z.shiftl_spec_low by lia.
    rewrite !orb_false_r. simpl. f_equal. lia. }
  rewrite (Z.shiftl_spec _ 8) by lia.
  rewrite Z.mod_pow2_bits_high by lia.
  destruct (Z.lt_ge_cases n 24) as [H24|H24].
  { rewrite (Z.shiftl_spec _ 16) by lia.
    rewrite Z.mod_pow2_bits_low by lia.
    rewrite Z.shiftr_spec by lia.
    rewrite !Z.shiftl_spec_low by lia.
    rewrite !orb_false_r. simpl. f_equal. lia. }
  rewrite (Z.shiftl_spec _ 16) by lia.
  rewrite Z.mod_pow2_bits_high by lia.
  rewrite (Z.shiftl_spec _ 24) by lia.
  destruct (Z.lt_ge_cases n 32) as [H32|H32].
  { rewrite Z.mod_pow2_bits_low by lia.
    rewrite Z.shiftr_spec by lia.
    simpl. f_equal. lia. }
  rewrite Z.mod_pow2_bits_high by lia.
  simpl. symmetry. auto.
Qed.

(** Decoding what [PutUint32] wrote gives the low 32 bits back. *)
Lemma Uint32_PutUint32 v rest : Uint32 (PutUint32 v ++ rest) = Some (uint32 v).
Proof.
  unfold PutUint32, Uint32. cbn [app].
  rewrite !Z_of_byte_of_Z. f_equal.
  apply bytes_join, uint32_range.
Qed.

Lemma int32_add_l a b : int32 (int32 a + b) = int32 (a + b).
Proof.
  unfold int32.
  replace ((a + 2 ^ 31) mod 2 ^ 32 - 2 ^ 31 + b + 2 ^ 31)
    with ((a + 2 ^ 31) mod 2 ^ 32 + b) by lia.
  rewrite Zplus_mod_idemp_l. do 2 f_equal. lia.
Qed.

Lemma int32_succ_neq' a : int32 (a + 1) <> int32 a.
Proof.
  rewrite <- int32_add_l. apply int32_succ_neq, int32_range.
Qed.

End GoIntFacts.

(** * Properties of streams *)

Module StreamFacts.
Import Stream.

Lemma pending_requeue bs r :
  pending (requeue bs r) = (List.length bs + pending r)%nat.
Proof. destruct bs; reflexivity. Qed.

Lemma delivers_pending r l r' :
  delivers r l r' -> pending r = (List.length l + pending r')%nat.
Proof.
  induction 1 as [|b bs r l r' _ IH]; simpl; [reflexivity|].
  rewrite pending_requeue in IH. lia.
Qed.

Lemma delivers_nil_inv r r' : delivers r [] r' -> r' = r.
Proof. inversion 1; reflexivity. Qed.

Lemma delivers_cons_inv r a l r' :
  delivers r (a :: l) r' ->
  exists bs r0, r = Data a bs :: r0 /\ delivers (requeue bs r0) l r'.
Proof. inversion 1; subst; eauto. Qed.

Lemma delivers_app r l1 r1 l2 r2 :
  delivers r l1 r1 -> delivers r1 l2 r2 -> delivers r (l1 ++ l2) r2.
Proof.
  induction 1; simpl; intros; [assumption | constructor; auto].
Qed.

Lemma delivers_app_inv l1 : forall r l2 r2,
  delivers r (l1 ++ l2) r2 ->
  exists r1, delivers r l1 r1 /\ delivers r1 l2 r2.
Proof.
  induction l1 as [|a l1 IH]; simpl; intros r l2 r2 H.
  - exists r. split; [constructor | assumption].
  - apply delivers_cons_inv in H as (bs & r0 & -> & H).
    destruct (IH _ _ _ H) as (r1 & H1 & H2).
    exists r1. split; [constructor|]; assumption.
Qed.

(** The stream after a given number of bytes is determined. *)
Lemma delivers_functional r l1 r1 :
  delivers r l1 r1 -> forall l2 r2,
  delivers r l2 r2 -> List.length l1 = List.length l2 ->
  l1 = l2 /\ r1 = r2.
Proof.
  induction 1 as [|b bs r l r' _ IH]; intros l2 r2 H2 Hlen.
  - destruct l2; [|discriminate]. apply delivers_nil_inv in H2. auto.
  - destruct l2 as [|a l2]; [discriminate|].
    apply delivers_cons_inv in H2 as (bs' & r0 & Heq & H2).
    injection Heq as -> -> ->. injection Hlen as Hlen.
    destruct (IH _ _ H2 Hlen) as [-> ->]. auto.
Qed.

Lemma delivers_arrivals chunks rest :
  delivers (arrivals chunks rest) (contents chunks) rest.
Proof.
  induction chunks as [|[b bs] cs IH]; simpl; [constructor|].
  constructor.
  revert b. induction bs as [|c bs IHbs]; intros b; simpl; [assumption|].
  constructor. apply IHbs. exact c.
Qed.

(** A single [Read] hands over a prefix of the run at the head of the
    stream. *)
Lemma delivers_run k : forall b bs r,
  delivers (Data b bs :: r) (firstn (S k) (b :: bs))
           (requeue (skipn (S k) (b :: bs)) r).
Proof.
  induction k as [|k IH]; intros b bs r.
  - simpl. constructor. destruct bs; constructor.
  - cbn [firstn skipn]. constructor.
    destruct bs as [|c bs]; [constructor|].
    apply (IH c bs r).
Qed.

Lemma Read_data k b bs r :
  Read (S k) (Data b bs :: r)
  = (firstn (S k) (b :: bs), None, requeue (skipn (S k) (b :: bs)) r).
Proof. reflexivity. Qed.

(** [Read] on a stream that delivers [l]: some first [j >= 1] bytes of
    [l] are returned, the rest of [l] is still to come. *)
Lemma Read_delivers k r l r' :
  delivers r l r' -> (S k <= List.length l)%nat ->
  exists j r1,
    Read (S k) r = (firstn j l, None, r1)
    /\ (1 <= j <= S k)%nat
    /\ delivers r1 (skipn j l) r'.
Proof.
  intros Hd Hlen.
  destruct Hd as [r|b bs r l r' Hd]; [simpl in Hlen; lia|].
  assert (Hall : delivers (Data b bs :: r) (b :: l) r') by (constructor; assumption).
  rewrite Read_data.
  pose proof (delivers_run k b bs r) as Hrun.
  set (got := firstn (S k) (b :: bs)) in *.
  assert (Hgot : (1 <= List.length got <= S k)%nat).
  { unfold got. rewrite length_firstn. simpl. lia. }
  exists (List.length got), (requeue (skipn (S k) (b :: bs)) r).
  rewrite <- (firstn_skipn (List.length got) (b :: l)) in Hall.
  destruct (delivers_app_inv _ _ _ _ Hall) as (r1 & H1 & H2).
  assert (Hl : List.length got = List.length (firstn (List.length got) (b :: l))).
  { rewrite length_firstn. simpl in *. lia. }
  destruct (delivers_functional _ _ _ Hrun _ _ H1 Hl) as [Heq <-].
  rewrite <- Heq. repeat split; try lia. assumption.
Qed.

End StreamFacts.

(** * Properties of util.go *)

Module UtilFacts.
Import Stream Util.

Lemma isDigit_value c :
  isDigit c = true -> 0 <= Z.of_nat (nat_of_ascii c) - 48 <= 9.
Proof.
  unfold isDigit. rewrite andb_true_iff, !Nat.leb_le. lia.
Qed.

Lemma decimal_from_grows s :
  all isDigit s = true -> forall n, 0 <= n -> n <= decimal_from n s.
Proof.
  induction s as [|c s IH]; simpl; intros Hd n Hn; [lia|].
  apply andb_true_iff in Hd as [Hc Hs].
  pose proof (isDigit_value c Hc).
  specialize (IH Hs (n * 10 + (Z.of_nat (nat_of_ascii c) - 48))). lia.
Qed.

Lemma ParseUint_loop_digits s0 s :
  all isDigit s = true ->
  forall n, 0 <= n <= GoInt.MaxUint16 ->
  ParseUint_loop s0 s n =
    if decimal_from n s <=? GoInt.MaxUint16
    then (decimal_from n s, None)
    else (GoInt.MaxUint16, Some (ErrRange s0)).
Proof.
  induction s as [|c s IH]; simpl; intros Hd n Hn; unfold GoInt.MaxUint16 in *.
  - destruct (Z.leb_spec n 65535); [reflexivity | lia].
  - apply andb_true_iff in Hd as [Hc Hs]. rewrite Hc.
    pose proof (isDigit_value c Hc) as Hv.
    unfold cutoff. destruct (Z.leb_spec (18446744073709551615 / 10 + 1) n) as [Hcut|_].
    { change (18446744073709551615 / 10 + 1) with 1844674407370955162 in Hcut. lia. }
    set (n1 := n * 10 + (Z.of_nat (nat_of_ascii c) - 48)) in *.
    destruct (Z.ltb_spec 65535 n1) as [Hbig|Hok].
    + pose proof (decimal_from_grows s Hs n1 ltac:(lia)).
      destruct (Z.leb_spec (decimal_from n1 s) 65535); [lia | reflexivity].
    + apply IH; [assumption | lia].
Qed.

(** [strconv.ParseUint] on a non-empty run of digits: its value when it
    fits sixteen bits, the range error otherwise. *)
Lemma ParseUint_digits s :
  s <> "" -> all isDigit s = true ->
  ParseUint s =
    if decimal s <=? GoInt.MaxUint16
    then (decimal s, None)
    else (GoInt.MaxUint16, Some (ErrRange s)).
Proof.
  intros Hne Hd. unfold ParseUint, decimal.
  destruct s as [|c s]; [congruence|].
  apply ParseUint_loop_digits; [assumption | unfold GoInt.MaxUint16; lia].
Qed.

Lemma span_spec p s a b :
  span p s = (a, b) -> s = (a ++ b)%string /\ all p a = true /\ stops p b.
Proof.
  revert a b. induction s as [|c s IH]; simpl; intros a b H.
  - inversion H; subst. repeat split.
  - destruct (p c) eqn:Hc.
    + destruct (span p s) as [a' b'] eqn:Hs. inversion H; subst.
      destruct (IH _ _ eq_refl) as (-> & Ha & Hb).
      simpl. rewrite Hc, Ha. repeat split; assumption.
    + inversion H; subst. simpl. repeat split; assumption.
Qed.

Lemma span_prefix p h rest :
  all p h = true -> stops p rest -> span p (h ++ rest)%string = (h, rest).
Proof.
  induction h as [|c h IH]; simpl; intros Hh Hr.
  - destruct rest as [|c r]; simpl in *; [reflexivity | now rewrite Hr].
  - apply andb_true_iff in Hh as [Hc Hh]. rewrite Hc, IH; auto.
Qed.

Lemma append_empty_r (s : string) : (s ++ "")%string = s.
Proof. induction s; simpl; congruence. Qed.

(** The matcher finds every match of the expression ... *)
Lemma FindAllStringSubmatch_complete address host port :
  addressRegExp_matches address host port ->
  FindAllStringSubmatch address = [[address; host; port]].
Proof.
  intros H. unfold FindAllStringSubmatch. destruct H as [host Hne Hh | host port Hne Hh Hlen Hd].
  - rewrite <- (append_empty_r host) at 1.
    rewrite span_prefix by (simpl; auto).
    destruct host; [congruence | reflexivity].
  - rewrite span_prefix by (simpl; auto).
    destruct host as [|c host]; [congruence|].
    cbn [append]. rewrite Hd.
    destruct Hlen as [H1 H5]. apply Nat.leb_le in H1, H5. rewrite H1, H5.
    reflexivity.
Qed.

(** ... and nothing else: it returns no match exactly when the expression
    does not match the whole text. *)
Lemma FindAllStringSubmatch_sound address :
  (FindAllStringSubmatch address = []
   /\ forall host port, ~ addressRegExp_matches address host port)
  \/ (exists host port,
        FindAllStringSubmatch address = [[address; host; port]]
        /\ addressRegExp_matches address host port).
Proof.
  assert (Hdec : forall host port,
             FindAllStringSubmatch address = [] ->
             ~ addressRegExp_matches address host port).
  { intros host port He Hm.
    rewrite (FindAllStringSubmatch_complete _ _ _ Hm) in He. discriminate. }
  unfold FindAllStringSubmatch in *.
  destruct (span isHostChar address) as [host rest] eqn:Hs.
  destruct (span_spec _ _ _ _ Hs) as (Haddr & Hhost & Hrest).
  destruct host as [|h0 host]; [left; split; auto|].
  destruct rest as [|c port].
  - right. exists (String h0 host), "". split; [reflexivity|].
    rewrite append_empty_r in Haddr. subst address.
    constructor; [discriminate | assumption].
  - destruct (Ascii.eqb c ":" && (1 <=? String.length port)%nat
              && (String.length port <=? 5)%nat && all isDigit port) eqn:Hc.
    + right. exists (String h0 host), port. split; [reflexivity|].
      rewrite !andb_true_iff in Hc. destruct Hc as [[[Hcol H1] H5] Hd].
      apply Ascii.eqb_eq in Hcol. apply Nat.leb_le in H1, H5.
      subst address c. constructor; auto; discriminate.
    + left. split; auto.
Qed.

Lemma addressRegExp_matches_unique address host port host' port' :
  addressRegExp_matches address host port ->
  addressRegExp_matches address host' port' ->
  host = host' /\ port = port'.
Proof.
  intros H H'.
  apply FindAllStringSubmatch_complete in H, H'.
  rewrite H in H'. inversion H'. auto.
Qed.

Lemma all_digits_host s : all isDigit s = true -> all isHostChar s = true.
Proof.
  induction s as [|c s IH]; simpl; [reflexivity|].
  rewrite !andb_true_iff. intros [Hc Hs]. split; auto.
  unfold isHostChar. rewrite Hc. now rewrite orb_true_r.
Qed.

Lemma uint16_decimal s :
  all isDigit s = true -> decimal s <= GoInt.MaxUint16 ->
  GoInt.uint16 (decimal s) = decimal s.
Proof.
  intros Hd Hfit. unfold GoInt.uint16, GoInt.MaxUint16 in *.
  pose proof (decimal_from_grows s Hd 0 ltac:(lia)) as Hpos. fold (decimal s) in Hpos.
  apply Z.mod_small. lia.
Qed.

(** *** [ParseAddress] *)

(** C3 (as amended). [ParseAddress] fails with the address error exactly
    when the expression does not match the whole text; otherwise the text
    is [host] or [host:port] with a port of one to five digits, and the
    result is the host with the default port when the port is missing,
    with the port's value when it fits sixteen bits, and the range error
    of [strconv.ParseUint] when it does not, as for ["host:99999"].
    A port of six digits, as in ["host:999999"], is no match at all and
    gives the address error. *)
Theorem ParseAddress_spec (address : string) (defaultPort : Z) :
  (((forall host port, ~ addressRegExp_matches address host port)
    /\ ParseAddress address defaultPort
       = ("", defaultPort, Some (ErrCannotParse address)))
   \/ (exists host port,
         addressRegExp_matches address host port
         /\ ParseAddress address defaultPort
            = match port with
              | EmptyString => (host, defaultPort, None)
              | String _ _ =>
                  if decimal port <=? GoInt.MaxUint16
                  then (host, decimal port, None)
                  else ("", defaultPort, Some (ErrRange port))
              end))
  /\ ParseAddress "host:99999" 25565 = ("", 25565, Some (ErrRange "99999"))
  /\ ParseAddress "host:999999" 25565
     = ("", 25565, Some (ErrCannotParse "host:999999")).
Proof.
  split; [|split; reflexivity].
  unfold ParseAddress.
  destruct (FindAllStringSubmatch_sound address)
    as [[-> Hno] | (host & port & -> & Hm)].
  - left. split; [assumption | reflexivity].
  - right. exists host, port. split; [assumption|].
    cbn [List.length nth_string nth Nat.ltb Nat.leb orb].
    destruct port as [|d port]; [reflexivity|].
    cbn [String.length Nat.ltb Nat.leb].
    inversion Hm; subst.
    rewrite ParseUint_digits by (assumption || discriminate).
    destruct (Z.leb_spec (decimal (String d port)) GoInt.MaxUint16) as [Hfit|_];
      [|reflexivity].
    rewrite uint16_decimal by assumption. reflexivity.
Qed.

Example ParseAddress_host :
  ParseAddress "play.example.com" 25565 = ("play.example.com", 25565, None).
Proof. reflexivity. Qed.

Example ParseAddress_host_port :
  ParseAddress "play.example.com:25566" 25565 = ("play.example.com", 25566, None).
Proof. reflexivity. Qed.

Example ParseAddress_no_match :
  ParseAddress "not a valid host!!" 25565
  = ("", 25565, Some (ErrCannotParse "not a valid host!!")).
Proof. reflexivity. Qed.

(** C3, as stated, fails: for ["host:999999"] with the default port 25565
    the error is not the range error of the numeric parse. *)
Lemma ParseAddress_six_digits_not_range_error :
  ~ (exists num, snd (ParseAddress "host:999999" 25565) = Some (ErrRange num)).
Proof.
  intros [num H]. vm_compute in H. discriminate.
Qed.

(** *** [readNTString] *)

Lemma Read_one b bs r :
  Read 1 (Data b bs :: r) = ([b], None, requeue bs r).
Proof. destruct bs; reflexivity. Qed.

(** The loop always leaves through one of its two exits. *)
Lemma readNTString_loop_total fuel : forall r result,
  (pending r < fuel)%nat -> readNTString_loop fuel r result <> None.
Proof.
  induction fuel as [|fuel IH]; intros r result Hf; [lia|].
  destruct r as [|[b bs|e|b bs e] r]; cbn [readNTString_loop].
  - discriminate.
  - rewrite Read_one. cbn [filled hd List.length Nat.sub repeat app].
    destruct (Byte.eqb b x00); [discriminate|].
    apply IH. rewrite StreamFacts.pending_requeue. simpl in Hf. lia.
  - discriminate.
  - destruct bs as [|c bs]; [discriminate|].
    cbn [Read List.length Nat.ltb Nat.leb firstn skipn requeue_err
         filled hd Nat.sub repeat app].
    destruct (Byte.eqb b x00); [discriminate|].
    apply IH. simpl in Hf |- *. lia.
Qed.

Lemma readNTString_total r : readNTString r <> None.
Proof. apply readNTString_loop_total. lia. Qed.

Lemma readNTString_loop_delivers l : forall r r' fuel result,
  ~ In x00 l ->
  delivers r (l ++ [x00]) r' ->
  (List.length l < fuel)%nat ->
  readNTString_loop fuel r result
  = Some (string_of_list_byte (result ++ l), None, r').
Proof.
  induction l as [|a l IH]; intros r r' fuel result Hnul Hd Hf;
    (destruct fuel as [|fuel]; [simpl in Hf; lia|]);
    apply StreamFacts.delivers_cons_inv in Hd as (bs & r0 & -> & Hd);
    cbn [readNTString_loop]; rewrite Read_one;
    cbn [filled hd List.length Nat.sub repeat app].
  - apply StreamFacts.delivers_nil_inv in Hd. subst r'.
    rewrite app_nil_r. reflexivity.
  - destruct (Byte.eqb a x00) eqn:Ea.
    { apply Byte.byte_dec_bl in Ea. subst a. exfalso. apply Hnul. now left. }
    rewrite (IH _ r' fuel (result ++ [a])).
    + now rewrite <- app_assoc.
    + intros Hin. apply Hnul. now right.
    + assumption.
    + simpl in Hf. lia.
Qed.

(** The loop on the bytes before the first zero. *)
Lemma readNTString_loop_skip l : forall r r' fuel result,
  ~ In x00 l ->
  delivers r l r' ->
  readNTString_loop (List.length l + fuel) r result
  = readNTString_loop fuel r' (result ++ l).
Proof.
  induction l as [|a l IH]; intros r r' fuel result Hnul Hd.
  - apply StreamFacts.delivers_nil_inv in Hd. subst r'.
    now rewrite app_nil_r.
  - apply StreamFacts.delivers_cons_inv in Hd as (bs & r0 & -> & Hd).
    cbn [List.length Nat.add readNTString_loop]. rewrite Read_one.
    cbn [filled hd List.length Nat.sub repeat app].
    destruct (Byte.eqb a x00) eqn:Ea.
    { apply Byte.byte_dec_bl in Ea. subst a. exfalso. apply Hnul. now left. }
    rewrite (IH _ r' fuel (result ++ [a])).
    + now rewrite <- app_assoc.
    + intros Hin. apply Hnul. now right.
    + assumption.
Qed.

(** The loop on a run whose last byte comes together with an error: the
    bytes before the last are read as usual, the last one is dropped,
    whatever it is. *)
Lemma readNTString_loop_run_err bs : forall b e rest fuel result,
  ~ In x00 (removelast (b :: bs)) ->
  (List.length bs < fuel)%nat ->
  readNTString_loop fuel (DataErr b bs e :: rest) result
  = Some ("", Some e, rest).
Proof.
  induction bs as [|c cs IH]; intros b e rest fuel result Hnul Hf;
    (destruct fuel as [|fuel]; [simpl in Hf; lia|]).
  - reflexivity.
  - cbn [readNTString_loop Read List.length Nat.ltb Nat.leb firstn skipn
         requeue_err filled hd Nat.sub repeat app].
    destruct (Byte.eqb b x00) eqn:Eb.
    { apply Byte.byte_dec_bl in Eb. subst b. exfalso. apply Hnul. now left. }
    apply IH.
    + intros Hin. apply Hnul. right. exact Hin.
    + simpl in Hf. lia.
Qed.

(** One string read from a stream that delivers its bytes and a zero. *)
Lemma readNTString_delivers s r r' :
  ~ In x00 (list_byte_of_string s) ->
  delivers r (list_byte_of_string s ++ [x00]) r' ->
  readNTString r = Some (s, None, r').
Proof.
  intros Hnul Hd. unfold readNTString.
  rewrite (readNTString_loop_delivers _ _ r' _ [] Hnul Hd).
  - cbn [app]. now rewrite string_of_list_byte_of_string.
  - apply StreamFacts.delivers_pending in Hd. rewrite Hd, length_app. simpl. lia.
Qed.

(** The bytes [l0] and a zero from a stream that hands over the last of
    them, at least, together with an error. *)
Lemma readNTString_last_with_error l0 r l b bs e rest :
  ~ In x00 l0 ->
  delivers r l (DataErr b bs e :: rest) ->
  l ++ b :: bs = l0 ++ [x00] ->
  readNTString r = Some ("", Some e, rest).
Proof.
  intros Hnul Hd Heq.
  assert (Hrl : l ++ removelast (b :: bs) = l0).
  { rewrite <- removelast_app by discriminate. rewrite Heq.
    apply removelast_last. }
  assert (Hl : ~ In x00 l).
  { intros Hin. apply Hnul. rewrite <- Hrl. apply in_or_app. now left. }
  assert (Hb : ~ In x00 (removelast (b :: bs))).
  { intros Hin. apply Hnul. rewrite <- Hrl. apply in_or_app. now right. }
  unfold readNTString.
  rewrite (StreamFacts.delivers_pending _ _ _ Hd).
  cbn [pending].
  replace (S (List.length l + S (List.length bs + pending rest)))%nat
    with (List.length l + S (S (List.length bs + pending rest)))%nat by lia.
  rewrite (readNTString_loop_skip l r _ _ [] Hl Hd).
  apply readNTString_loop_run_err; [exact Hb | lia].
Qed.

(** C7. For a string [s] without a zero byte, [readNTString] returns
    exactly [s], and leaves the source just after the terminator, when the
    source hands over the bytes of [s] and the zero byte with nil errors.
    The claim is for every source with these contents, and there the code
    misses a case: the loop looks at the error of [Read] before it looks
    at the byte, so when the read that hands over the terminator returns
    it together with an error ([n = 1] and [err != nil], as a reader may
    at the end of its data), [readNTString] returns that error and the
    empty string instead of [s]. *)
Theorem readNTString_terminator_read_with_error (s : string) :
  ~ In x00 (list_byte_of_string s) ->
  (forall r r',
      delivers r (list_byte_of_string s ++ [x00]) r' ->
      readNTString r = Some (s, None, r'))
  /\ (forall r l b bs e rest,
        delivers r l (DataErr b bs e :: rest) ->
        l ++ b :: bs = list_byte_of_string s ++ [x00] ->
        readNTString r = Some ("", Some e, rest)).
Proof.
  intros Hnul. split.
  - intros r r'. now apply readNTString_delivers.
  - intros r l b bs e rest. now apply readNTString_last_with_error.
Qed.

Lemma readNTString_terminator_read_with_error_witness :
  readNTString [Data "h" ["i"%byte; x00]] = Some ("hi", None, [])
  /\ readNTString [DataErr "h" ["i"%byte; x00] EOF] = Some ("", Some EOF, [])
  /\ readNTString [Data "h" ["i"%byte]; DataErr x00 [] EOF] = Some ("", Some EOF, []).
Proof.
  destruct (readNTString_terminator_read_with_error "hi") as [Hok Hbad].
  - simpl. intros [H|[H|[]]]; discriminate.
  - split; [|split].
    + apply Hok. simpl. repeat constructor.
    + apply (Hbad _ [] "h"%byte ["i"%byte; x00] EOF []); [constructor | reflexivity].
    + apply (Hbad _ ["h"%byte; "i"%byte] x00 [] EOF []); [repeat constructor | reflexivity].
Defined.

End UtilFacts.

(** * Properties of the transport *)

Module NetFacts.
Import Stream Net.

Lemma Read_progress k r bs r' :
  Read (S k) r = (bs, None, r') -> (1 <= List.length bs <= S k)%nat.
Proof.
  destruct r as [|[b l|e|b l e] r]; cbn [Read]; intros H; try discriminate.
  - injection H as <- _. simpl. rewrite length_firstn. lia.
  - destruct (S k <? List.length (b :: l))%nat eqn:E; [|discriminate].
    apply Nat.ltb_lt in E.
    injection H as <- _. simpl in E |- *. rewrite length_firstn. lia.
Qed.

(** [io.ReadFull] always returns: the iterations allowed are enough. *)
Lemma ReadFull_loop_total fuel : forall want got i,
  (want <= fuel)%nat -> ReadFull_loop fuel want got i <> None.
Proof.
  induction fuel as [|fuel IH]; intros want got i Hf.
  - destruct want; [discriminate | lia].
  - destruct want as [|want]; [discriminate|].
    cbn [ReadFull_loop].
    destruct (Read (S want) i) as [[bs [e|]] i'] eqn:HR.
    + destruct (List.length bs <? S want)%nat; discriminate.
    + apply Read_progress in HR. apply IH. lia.
Qed.

Lemma ReadFull_no_crash k c : fst (ReadFull k c) <> Crash.
Proof.
  unfold ReadFull.
  destruct (ReadFull_loop k k [] (incoming c)) as [[[got [e|]] i]|] eqn:H;
    try discriminate.
  exfalso. revert H. apply ReadFull_loop_total. lia.
Qed.

(** On a stream that delivers the bytes wanted, [io.ReadFull] returns
    exactly these, however short the single reads are. *)
Lemma ReadFull_loop_delivers fuel : forall want got i l i',
  delivers i l i' -> List.length l = want -> (want <= fuel)%nat ->
  ReadFull_loop fuel want got i = Some (got ++ l, None, i').
Proof.
  induction fuel as [|fuel IH]; intros want got i l i' Hd Hl Hf.
  - destruct want; [|lia]. destruct l; [|discriminate].
    apply StreamFacts.delivers_nil_inv in Hd. subst. simpl.
    now rewrite app_nil_r.
  - destruct want as [|want].
    + destruct l; [|discriminate].
      apply StreamFacts.delivers_nil_inv in Hd. subst. simpl.
      now rewrite app_nil_r.
    + cbn [ReadFull_loop].
      destruct (StreamFacts.Read_delivers want i l i' Hd ltac:(lia))
        as (j & i1 & -> & Hj & Hrest).
      rewrite (IH _ _ _ (skipn j l) i' Hrest).
      * rewrite <- app_assoc, firstn_skipn. reflexivity.
      * rewrite length_skipn, length_firstn. lia.
      * rewrite length_firstn. lia.
Qed.

Lemma ReadFull_delivers c l i' :
  delivers (incoming c) l i' ->
  ReadFull (List.length l) c = (Val l, set_incoming i' c).
Proof.
  intros Hd. unfold ReadFull.
  now rewrite (ReadFull_loop_delivers _ _ [] _ l i' Hd eq_refl (Nat.le_refl _)).
Qed.

(** [binary.Read] of an [int32] that the peer wrote with [PutUint32]. *)
Lemma binary_Read_int32_delivers c v i' :
  delivers (incoming c) (GoInt.PutUint32 v) i' ->
  binary_Read_int32 c = (Val (GoInt.int32 v), set_incoming i' c).
Proof.
  intros Hd. unfold binary_Read_int32, bind.
  change 4%nat with (List.length (GoInt.PutUint32 v)).
  rewrite (ReadFull_delivers _ _ _ Hd).
  pose proof (GoIntFacts.Uint32_PutUint32 v []) as Hu.
  rewrite app_nil_r in Hu. rewrite Hu. unfold ret.
  now rewrite GoIntFacts.int32_uint32.
Qed.

(** On a stream the peer has closed every read reports [io.EOF]. *)
Lemma conn_Read_closed k c :
  incoming c = [] -> conn_Read (S k) c = (Raise EOF, c).
Proof.
  intros H. unfold conn_Read. rewrite H. cbn [Read].
  destruct c; simpl in *; subst; reflexivity.
Qed.

Lemma io_Copy_ok buf c :
  buf <> [] -> write_succeeds c ->
  exists c',
    io_Copy buf c = (Val tt, c')
    /\ outgoing c' = outgoing c ++ buf
    /\ incoming c' = incoming c
    /\ writes c' = tl (writes c).
Proof.
  intros Hb Hw. destruct buf as [|b buf]; [congruence|].
  unfold io_Copy, conn_Write. unfold write_succeeds in Hw.
  destruct (writes c) as [|[|n e] w]; [| |contradiction]; eexists; repeat split.
Qed.

Lemma io_Copy_fail buf c n e w :
  buf <> [] -> writes c = WriteFail n e :: w ->
  exists c',
    io_Copy buf c = (Raise e, c')
    /\ outgoing c' = outgoing c ++ firstn n buf
    /\ incoming c' = incoming c
    /\ writes c' = w.
Proof.
  intros Hb Hw. destruct buf as [|b buf]; [congruence|].
  unfold io_Copy, conn_Write. rewrite Hw. eexists; repeat split.
Qed.

(** *** Computations that only read *)

Lemma quiet_ret {A} (a : A) : quiet (ret a).
Proof. intros c. split; reflexivity. Qed.

Lemma quiet_raise {A} e : quiet (@raise A e).
Proof. intros c. split; reflexivity. Qed.

Lemma quiet_crash {A} : quiet (@crash A).
Proof. intros c. split; reflexivity. Qed.

Lemma quiet_bind {A B} (m : io A) (k : A -> io B) :
  quiet m -> (forall a, quiet (k a)) -> quiet (bind m k).
Proof.
  intros Hm Hk c. unfold bind. specialize (Hm c).
  destruct (m c) as [[a|e|] c']; simpl in Hm; try exact Hm.
  destruct (Hk a c') as [H1 H2]. rewrite H1, H2. exact Hm.
Qed.

Lemma quiet_conn_Read k : quiet (conn_Read k).
Proof.
  intros c. unfold conn_Read.
  destruct (Read k (incoming c)) as [[got err] i]. split; reflexivity.
Qed.

Lemma quiet_ReadFull k : quiet (ReadFull k).
Proof.
  intros c. unfold ReadFull.
  destruct (ReadFull_loop k k [] (incoming c)) as [[[got [e|]] i]|];
    split; reflexivity.
Qed.

Lemma quiet_binary_Read_int32 : quiet binary_Read_int32.
Proof.
  apply quiet_bind; [apply quiet_ReadFull|]. intros bs.
  destruct (GoInt.Uint32 bs); [apply quiet_ret | apply quiet_crash].
Qed.

Lemma quiet_make n : quiet (make n).
Proof.
  unfold make. destruct (n <? 0); [apply quiet_crash | apply quiet_ret].
Qed.

Lemma quiet_conn_SetDeadline : quiet conn_SetDeadline.
Proof.
  intros c. unfold conn_SetDeadline.
  destruct (deadlines c) as [|[e|] d]; split; reflexivity.
Qed.

Create HintDb quiet.
#[export] Hint Resolve quiet_ret quiet_raise quiet_crash quiet_conn_Read
  quiet_ReadFull quiet_binary_Read_int32 quiet_make quiet_conn_SetDeadline
  : quiet.

End NetFacts.

(** * Properties of the RCON client *)

Module RCONFacts.
Import Stream Net RCON GoInt NetFacts.

(** *** Packets *)

Lemma list_byte_of_string_length s :
  List.length (list_byte_of_string s) = String.length s.
Proof.
  unfold list_byte_of_string. rewrite length_map.
  induction s; simpl; congruence.
Qed.

Lemma Login_packet_layout password :
  Login_packet password
  = PutUint32 (10 + Z.of_nat (String.length password))
    ++ PutUint32 0 ++ PutUint32 3
    ++ list_byte_of_string password ++ [x00] ++ [x00].
Proof.
  unfold Login_packet, binary_Write_int32, buf_Write, buf_WriteByte.
  rewrite !GoIntFacts.PutUint32_int32. cbn [app]. rewrite <- !app_assoc. reflexivity.
Qed.

Lemma Run_packet_layout requestID command :
  Run_packet requestID command
  = PutUint32 (10 + Z.of_nat (String.length command))
    ++ PutUint32 requestID ++ PutUint32 2
    ++ list_byte_of_string command ++ [x00] ++ [x00].
Proof.
  unfold Run_packet, binary_Write_int32, buf_Write, buf_WriteByte.
  rewrite !GoIntFacts.PutUint32_int32. cbn [app]. rewrite <- !app_assoc. reflexivity.
Qed.

Lemma Login_packet_nonempty password : Login_packet password <> [].
Proof. rewrite Login_packet_layout. discriminate. Qed.

Lemma Run_packet_nonempty requestID command : Run_packet requestID command <> [].
Proof. rewrite Run_packet_layout. discriminate. Qed.

Lemma declared_length_PutUint32 v rest :
  declared_length (PutUint32 v ++ rest) = Some (int32 v).
Proof.
  unfold declared_length. rewrite GoIntFacts.Uint32_PutUint32. simpl.
  now rewrite GoIntFacts.int32_uint32.
Qed.

Lemma layout_length (a b c payload : list byte) :
  List.length a = 4%nat -> List.length b = 4%nat -> List.length c = 4%nat ->
  Z.of_nat (List.length (a ++ b ++ c ++ payload ++ [x00] ++ [x00]))
  = 4 + (4 + 4 + Z.of_nat (List.length payload) + 1 + 1).
Proof.
  intros Ha Hb Hc. rewrite !length_app, Ha, Hb, Hc. cbn [List.length]. lia.
Qed.

Lemma replicate_length p : forall s,
  Z.of_nat (String.length (replicate p s))
  = Z.pos p * Z.of_nat (String.length s).
Proof.
  assert (Happ : forall a b, String.length (a ++ b)%string
                             = (String.length a + String.length b)%nat).
  { induction a; simpl; intros; [reflexivity | now rewrite IHa]. }
  induction p as [p IH|p IH|]; intros s; cbn [replicate].
  - rewrite Happ, Nat2Z.inj_add, IH, Happ, Nat2Z.inj_add, Pos2Z.inj_xI. ring.
  - rewrite IH, Happ, Nat2Z.inj_add, Pos2Z.inj_xO. ring.
  - lia.
Qed.

(** *** What [Login] and [Run] put on the wire *)

Lemma quiet_Login_response : quiet Login_response.
Proof.
  unfold Login_response.
  apply NetFacts.quiet_bind; [auto with quiet|]. intros packetLength.
  apply NetFacts.quiet_bind; [auto with quiet|]. intros rid.
  destruct (rid =? -1); [auto with quiet|].
  destruct (negb (rid =? 0)); [auto with quiet|].
  apply NetFacts.quiet_bind; [auto with quiet|]. intros ty.
  destruct (negb (ty =? 2)); [auto with quiet|].
  apply NetFacts.quiet_bind; [auto with quiet|]. intros n.
  apply NetFacts.quiet_bind; auto with quiet.
Qed.

Lemma Login_wire password r c :
  conn r = Some c -> authSuccess r = false -> write_succeeds c ->
  wire (snd (Login password r)) = outgoing c ++ Login_packet password.
Proof.
  intros Hc Ha Hw. unfold Login. rewrite Hc, Ha.
  destruct (NetFacts.io_Copy_ok _ c (Login_packet_nonempty password) Hw)
    as (c0 & Hcopy & Hout & _).
  unfold bind at 1. rewrite Hcopy.
  destruct (quiet_Login_response c0) as [Hq _].
  destruct (Login_response c0) as [[[]|e|] c1]; simpl in Hq.
  - destruct (NetFacts.quiet_conn_SetDeadline c1) as [Hd _].
    destruct (conn_SetDeadline c1) as [[[]|e|] c2]; simpl in Hd;
      unfold wire; simpl; congruence.
  - unfold wire; simpl; congruence.
  - unfold wire; simpl; congruence.
Qed.

(** *** [Run] on a connected and authenticated session *)

Section OnAuthenticatedSession.

Variables (r : RCONClient) (c : Conn).
Hypothesis Hconn : conn r = Some c.
Hypothesis Hauth : authSuccess r = true.

(** The counter is incremented before the write and whatever the write
    does. *)
Lemma Run_authenticated command :
  let (res, c') := io_Copy (Run_packet (int32 (requestID r + 1)) command) c in
  Run command r
  = (res, set_conn (Some c') (set_requestID (int32 (requestID r + 1)) r)).
Proof.
  unfold Run. rewrite Hconn, Hauth. cbn [negb set_requestID requestID].
  destruct (io_Copy _ c) as [res c']. reflexivity.
Qed.

Lemma Run_requestID command :
  requestID (snd (Run command r)) = int32 (requestID r + 1)
  /\ Authenticated (snd (Run command r))
  /\ pumps (snd (Run command r)) = pumps r.
Proof.
  pose proof (Run_authenticated command) as H.
  destruct (io_Copy _ c) as [res c']. rewrite H. simpl.
  repeat split; [discriminate | assumption].
Qed.

Lemma Run_wire command :
  write_succeeds c ->
  fst (Run command r) = Val tt
  /\ wire (snd (Run command r))
     = outgoing c ++ Run_packet (int32 (requestID r + 1)) command.
Proof.
  intros Hw. pose proof (Run_authenticated command) as H.
  destruct (NetFacts.io_Copy_ok _ c
              (Run_packet_nonempty (int32 (requestID r + 1)) command) Hw)
    as (c0 & Hcopy & Hout & _).
  rewrite Hcopy in H. rewrite H. split; [reflexivity|].
  unfold wire. simpl. exact Hout.
Qed.

(** A write that fails after [n] bytes. *)
Lemma Run_write_fails command n e w :
  writes c = WriteFail n e :: w ->
  fst (Run command r) = Raise e
  /\ wire (snd (Run command r))
     = outgoing c ++ firstn n (Run_packet (int32 (requestID r + 1)) command).
Proof.
  intros Hw. pose proof (Run_authenticated command) as H.
  destruct (NetFacts.io_Copy_fail _ c n e w
              (Run_packet_nonempty (int32 (requestID r + 1)) command) Hw)
    as (c0 & Hcopy & Hout & _).
  rewrite Hcopy in H. rewrite H. split; [reflexivity|].
  unfold wire. simpl. exact Hout.
Qed.

End OnAuthenticatedSession.

(** C6 (as amended). The packets that [Login] and [Run] put on the wire
    are: four bytes of length, the little-endian [int32] of 10 plus the
    number of payload bytes; four bytes of request ID; four bytes of type,
    3 for [Login] and 2 for [Run]; the payload; one zero byte that ends
    it and one more zero byte. The length field is followed by exactly
    4+4+len(payload)+1+1 bytes, and a receiver reads that number from it
    whenever it is at most 2147483647. *)
Theorem outbound_packet_layout (payload : string) :
  let n := Z.of_nat (String.length payload) in
  (Login_packet payload
   = PutUint32 (10 + n) ++ PutUint32 0 ++ PutUint32 3
     ++ list_byte_of_string payload ++ [x00] ++ [x00])
  /\ (forall requestID,
        Run_packet requestID payload
        = PutUint32 (10 + n) ++ PutUint32 requestID ++ PutUint32 2
          ++ list_byte_of_string payload ++ [x00] ++ [x00])
  /\ Z.of_nat (List.length (Login_packet payload)) = 4 + (4 + 4 + n + 1 + 1)
  /\ (forall requestID,
        Z.of_nat (List.length (Run_packet requestID payload))
        = 4 + (4 + 4 + n + 1 + 1))
  /\ (10 + n <= MaxInt32 ->
      declared_length (Login_packet payload) = Some (10 + n)
      /\ forall requestID,
           declared_length (Run_packet requestID payload) = Some (10 + n))
  /\ (forall r c,
        conn r = Some c -> authSuccess r = false -> write_succeeds c ->
        wire (snd (Login payload r)) = outgoing c ++ Login_packet payload)
  /\ (forall r c,
        conn r = Some c -> authSuccess r = true -> write_succeeds c ->
        wire (snd (Run payload r))
        = outgoing c ++ Run_packet (int32 (requestID r + 1)) payload).
Proof.
  intros n. subst n.
  split; [apply Login_packet_layout|].
  split; [intros; apply Run_packet_layout|].
  split.
  { rewrite Login_packet_layout, layout_length, list_byte_of_string_length;
      reflexivity. }
  split.
  { intros rid.
    rewrite Run_packet_layout, layout_length, list_byte_of_string_length;
      reflexivity. }
  split.
  { intros Hfit.
    assert (Hid : int32 (10 + Z.of_nat (String.length payload))
                  = 10 + Z.of_nat (String.length payload)).
    { apply GoIntFacts.int32_id. unfold MinInt32, MaxInt32 in *. lia. }
    split; [|intros rid].
    - now rewrite Login_packet_layout, declared_length_PutUint32, Hid.
    - now rewrite Run_packet_layout, declared_length_PutUint32, Hid. }
  split.
  - intros r c. apply Login_wire.
  - intros r c Hc Ha Hw. apply (Run_wire r c Hc Ha payload Hw).
Qed.

Lemma outbound_packet_layout_witness :
  declared_length (Login_packet "secret") = Some 16
  /\ declared_length (Run_packet 7 "secret") = Some 16
  /\ wire (snd (Run "secret"
                  (mkRCON (Some (mkConn [] [] [] [] [])) [] false true 6 1 [] [])))
     = Run_packet 7 "secret".
Proof.
  pose proof (outbound_packet_layout "secret") as H. cbv zeta in H.
  destruct H as (_ & _ & _ & _ & Hlen & _ & Hrun).
  destruct (Hlen ltac:(vm_compute; discriminate)) as [HL HR].
  split; [exact HL|]. split; [exact (HR 7)|].
  exact (Hrun (mkRCON (Some (mkConn [] [] [] [] [])) [] false true 6 1 [] [])
              (mkConn [] [] [] [] []) eq_refl eq_refl I).
Defined.

(** C6, as stated, fails for a payload of 2147483638 bytes: 10 plus the
    payload byte count is 2147483648, and the length declared by the
    packet of [Login] is [int32(2147483648)], that is -2147483648. *)
Lemma declared_length_wraps :
  let password := replicate 2147483638 "a" in
  Z.of_nat (String.length password) = 2147483638
  /\ declared_length (Login_packet password) = Some (-2147483648)
  /\ declared_length (Login_packet password)
     <> Some (10 + Z.of_nat (String.length password)).
Proof.
  intros password.
  assert (Hlen : Z.of_nat (String.length password) = 2147483638).
  { unfold password. rewrite replicate_length. reflexivity. }
  assert (Hdecl : declared_length (Login_packet password) = Some (-2147483648)).
  { rewrite Login_packet_layout, declared_length_PutUint32, Hlen. reflexivity. }
  split; [exact Hlen|]. split; [exact Hdecl|].
  rewrite Hdecl, Hlen. discriminate.
Qed.

(** *** [Login] *)

Lemma set_incoming_twice i i' c :
  set_incoming i' (set_incoming i c) = set_incoming i' c.
Proof. reflexivity. Qed.

(** The response starts with a length and a request ID other than 0. *)
Lemma Login_response_requestID c L rid i' :
  MinInt32 <= rid <= MaxInt32 -> rid <> 0 ->
  delivers (incoming c) (PutUint32 L ++ PutUint32 rid) i' ->
  Login_response c
  = (Raise (if rid =? -1 then ErrInvalidPassword
            else ErrUnexpectedRequestID 0 rid),
     set_incoming i' c).
Proof.
  intros Hr Hnz Hd.
  apply StreamFacts.delivers_app_inv in Hd as (i1 & H1 & H2).
  unfold Login_response, bind.
  rewrite (binary_Read_int32_delivers _ _ _ H1).
  rewrite (binary_Read_int32_delivers (set_incoming i1 c) rid i' H2).
  rewrite (GoIntFacts.int32_id rid Hr), set_incoming_twice.
  destruct (rid =? -1); [reflexivity|].
  destruct (Z.eqb_spec rid 0); [contradiction | reflexivity].
Qed.

(** The response starts with a length, the request ID 0 and a type other
    than 2. *)
Lemma Login_response_packetType c L ty i' :
  MinInt32 <= ty <= MaxInt32 -> ty <> 2 ->
  delivers (incoming c) (PutUint32 L ++ PutUint32 0 ++ PutUint32 ty) i' ->
  Login_response c = (Raise (ErrUnexpectedPacketType 2 ty), set_incoming i' c).
Proof.
  intros Hr Hne Hd.
  apply StreamFacts.delivers_app_inv in Hd as (i1 & H1 & H2).
  apply StreamFacts.delivers_app_inv in H2 as (i2 & H2 & H3).
  unfold Login_response, bind.
  rewrite (binary_Read_int32_delivers _ _ _ H1).
  rewrite (binary_Read_int32_delivers (set_incoming i1 c) 0 i2 H2).
  change (int32 0 =? -1) with false. change (negb (int32 0 =? 0)) with false.
  cbv beta iota.
  rewrite (binary_Read_int32_delivers (set_incoming i2 (set_incoming i1 c)) ty i' H3).
  rewrite (GoIntFacts.int32_id ty Hr).
  destruct (Z.eqb_spec ty 2); [contradiction | reflexivity].
Qed.

(** [Login] on a connected session whose request was written: the
    outcome is that of reading the response, and a failure changes the
    transport only. *)
Lemma Login_failed_response password r c e :
  conn r = Some c -> authSuccess r = false -> write_succeeds c ->
  (forall c0, incoming c0 = incoming c ->
              exists c1, Login_response c0 = (Raise e, c1)) ->
  exists c1, Login password r = (Raise e, set_conn (Some c1) r).
Proof.
  intros Hc Ha Hw Hresp. unfold Login. rewrite Hc, Ha.
  destruct (NetFacts.io_Copy_ok _ c (Login_packet_nonempty password) Hw)
    as (c0 & Hcopy & _ & Hin & _).
  destruct (Hresp c0 Hin) as (c1 & H1).
  unfold bind at 1. rewrite Hcopy, H1. eauto.
Qed.

Lemma Login_success password r r' :
  Login password r = (Val tt, r') ->
  Connected r
  /\ Authenticated r'
  /\ pumps r' = S (pumps r)
  /\ requestID r' = requestID r.
Proof.
  unfold Login, Connected, Authenticated.
  destruct (conn r) as [c|] eqn:Hc; [|discriminate].
  destruct (authSuccess r) eqn:Ha; [discriminate|].
  destruct ((_ <- io_Copy (Login_packet password);; Login_response) c)
    as [[[]|e|] c1]; try discriminate.
  destruct (conn_SetDeadline c1) as [[[]|e|] c2]; try discriminate.
  intros H. injection H as <-. simpl.
  repeat split; discriminate.
Qed.

(** Unless [Login] returns nil no goroutine is started. *)
Lemma Login_failure_no_pump password r :
  fst (Login password r) <> Val tt ->
  pumps (snd (Login password r)) = pumps r
  /\ requestID (snd (Login password r)) = requestID r
  /\ Messages (snd (Login password r)) = Messages r.
Proof.
  unfold Login.
  destruct (conn r) as [c|]; [|auto].
  destruct (authSuccess r); [auto|].
  destruct ((_ <- io_Copy (Login_packet password);; Login_response) c)
    as [[[]|e|] c1]; auto.
  destruct (conn_SetDeadline c1) as [[[]|e|] c2]; simpl; auto.
  intros H. contradiction H. reflexivity.
Qed.

Lemma Login_keeps_requestID password r :
  requestID (snd (Login password r)) = requestID r.
Proof.
  destruct (fst (Login password r)) as [[]|e|] eqn:H.
  - destruct (Login password r) as [res r'] eqn:HL. simpl in H. subst res.
    apply Login_success in HL. simpl. tauto.
  - apply Login_failure_no_pump. rewrite H. discriminate.
  - apply Login_failure_no_pump. rewrite H. discriminate.
Qed.

(** C4. On a connected session that is not authenticated: a [Login] that
    returns nil leaves the session authenticated and has started exactly
    one goroutine, and no other outcome starts one; when the response
    carries the request ID -1, [Login] returns [ErrInvalidPassword] and
    the session is as before, connected and not authenticated, only the
    transport has moved on; a request ID other than 0 and -1 gives the
    error naming 0 and the ID received, and the request ID 0 with a type
    other than 2 gives the error naming 2 and the type received. *)
Theorem Login_outcomes (password : string) (r : RCONClient) (c : Conn) :
  conn r = Some c -> authSuccess r = false ->
  let res := fst (Login password r) in
  let r' := snd (Login password r) in
  (res = Val tt -> Authenticated r' /\ pumps r' = S (pumps r))
  /\ (res <> Val tt -> pumps r' = pumps r)
  /\ (write_succeeds c ->
      forall L i',
        delivers (incoming c) (PutUint32 L ++ PutUint32 (-1)) i' ->
        res = Raise ErrInvalidPassword
        /\ (exists c1, r' = set_conn (Some c1) r)
        /\ Connected r')
  /\ (write_succeeds c ->
      forall L rid i',
        MinInt32 <= rid <= MaxInt32 -> rid <> 0 -> rid <> -1 ->
        delivers (incoming c) (PutUint32 L ++ PutUint32 rid) i' ->
        res = Raise (ErrUnexpectedRequestID 0 rid)
        /\ (exists c1, r' = set_conn (Some c1) r)
        /\ Connected r')
  /\ (write_succeeds c ->
      forall L ty i',
        MinInt32 <= ty <= MaxInt32 -> ty <> 2 ->
        delivers (incoming c) (PutUint32 L ++ PutUint32 0 ++ PutUint32 ty) i' ->
        res = Raise (ErrUnexpectedPacketType 2 ty)
        /\ (exists c1, r' = set_conn (Some c1) r)
        /\ Connected r').
Proof.
  intros Hc Ha res r'.
  assert (Hfail : forall e,
             write_succeeds c ->
             (forall c0, incoming c0 = incoming c ->
                         exists c1, Login_response c0 = (Raise e, c1)) ->
             res = Raise e
             /\ (exists c1, r' = set_conn (Some c1) r)
             /\ Connected r').
  { intros e Hw Hresp.
    destruct (Login_failed_response password r c e Hc Ha Hw Hresp) as (c1 & HL).
    subst res r'. rewrite HL. simpl.
    split; [reflexivity|]. split; [eauto|].
    split; [discriminate | assumption]. }
  split; [|split; [|split; [|split]]].
  - intros Hres. subst res r'.
    destruct (Login password r) as [res r1] eqn:HL. simpl in *. subst res.
    apply Login_success in HL. tauto.
  - intros Hres. apply Login_failure_no_pump. exact Hres.
  - intros Hw L i' Hd. apply Hfail; [assumption|].
    intros c0 Hin. rewrite <- Hin in Hd.
    rewrite (Login_response_requestID c0 L (-1) i'); eauto.
    + unfold MinInt32, MaxInt32. lia.
    + discriminate.
  - intros Hw L rid i' Hr Hnz Hn1 Hd. apply Hfail; [assumption|].
    intros c0 Hin. rewrite <- Hin in Hd.
    rewrite (Login_response_requestID c0 L rid i' Hr Hnz Hd).
    destruct (Z.eqb_spec rid (-1)); [contradiction | eauto].
  - intros Hw L ty i' Hr Hne Hd. apply Hfail; [assumption|].
    intros c0 Hin. rewrite <- Hin in Hd.
    rewrite (Login_response_packetType c0 L ty i' Hr Hne Hd). eauto.
Qed.

Lemma Login_outcomes_witness :
  (* the server accepts: length 10, request ID 0, type 2, two bytes *)
  (let r := set_conn (Some (mkConn
               [Data x0a [x00; x00; x00; x00; x00; x00; x00;
                          x02; x00; x00; x00; x00; x00]] [] [] [] [])) NewRCON in
   Authenticated (snd (Login "pw" r))
   /\ pumps (snd (Login "pw" r)) = 1%nat)
  (* the server rejects the password: request ID -1 *)
  /\ (let r := set_conn (Some (mkConn
                  [Data x0a [x00; x00; x00]; Data xff [xff; xff; xff]]
                  [] [] [] [])) NewRCON in
      fst (Login "pw" r) = Raise ErrInvalidPassword
      /\ Connected (snd (Login "pw" r))).
Proof.
  split.
  - intros r.
    apply (proj1 (Login_outcomes "pw" r _ eq_refl eq_refl)). reflexivity.
  - intros r.
    destruct (proj1 (proj2 (proj2 (Login_outcomes "pw" r _ eq_refl eq_refl)))
                I 10 [] ltac:(repeat constructor)) as (H1 & _ & H3).
    split; assumption.
Defined.

(** *** [Run] and the request ID *)

(** [Run] refused: nothing changes. *)
Lemma Run_refused command r :
  conn r = None \/ authSuccess r = false -> snd (Run command r) = r.
Proof.
  unfold Run. intros [H|H].
  - rewrite H. reflexivity.
  - destruct (conn r); [rewrite H|]; reflexivity.
Qed.

Lemma readMessage_same r : same_session r (snd (readMessage r)).
Proof.
  unfold readMessage, same_session.
  destruct (conn r) as [c|] eqn:Hc; [|simpl; try rewrite Hc; tauto].
  destruct (readMessage_frame c) as [[[msg|]|e|] c']; simpl;
    try rewrite Hc; repeat split; discriminate.
Qed.

Lemma pump_body_same r : same_session r (snd (pump_body r)).
Proof.
  unfold pump_body. pose proof (readMessage_same r) as H.
  destruct (readMessage r) as [[[]|e|] r']; exact H.
Qed.

Lemma same_session_trans r1 r2 r3 :
  same_session r1 r2 -> same_session r2 r3 -> same_session r1 r3.
Proof.
  unfold same_session. intros (A1 & B1 & C1 & D1 & E1) (A2 & B2 & C2 & D2 & E2).
  repeat split; try congruence; tauto.
Qed.

Lemma pump_same n : forall r, same_session r (snd (pump n r)).
Proof.
  induction n as [|n IH]; intros r; cbn [pump].
  - unfold same_session. tauto.
  - pose proof (pump_body_same r) as H.
    destruct (pump_body r) as [[|] r']; simpl in H; [|exact H].
    eapply same_session_trans; [exact H | apply IH].
Qed.

(** While the flag is down the counter is 0, and the counter is an
    [int32]. *)
Lemma reachable_invariant r :
  reachable r ->
  (authSuccess r = false -> requestID r = 0)
  /\ MinInt32 <= requestID r <= MaxInt32.
Proof.
  induction 1 as [|d r _ IH|password r _ IH|command r _ IH|r _ IH|r r' _ IH Hp Hb].
  - split; [reflexivity | unfold MinInt32, MaxInt32; simpl; lia].
  - unfold Dial. destruct d as [c|e]; [|exact IH].
    destruct (conn_SetDeadline c) as [[[]|e|] c']; exact IH.
  - rewrite Login_keeps_requestID. split; [|apply IH].
    intros Ha. apply IH.
    destruct (authSuccess r) eqn:Hr; [|reflexivity].
    unfold Login in Ha. destruct (conn r); try rewrite Hr in Ha;
      simpl in Ha; congruence.
  - destruct (conn r) as [c|] eqn:Hc;
      [destruct (authSuccess r) eqn:Ha|];
      try (rewrite Run_refused by auto; rewrite ?Ha; exact IH).
    destruct (Run_requestID r c Hc Ha command) as (Hid & [_ Hauth] & _).
    rewrite Hid, Hauth. split; [discriminate | apply GoIntFacts.int32_range].
  - unfold Close. cbn [conn set_requestID set_authSuccess].
    destruct (conn r) as [c|]; [destruct (conn_Close c) as [[[]|e|] c']|];
      simpl; (split; [reflexivity | unfold MinInt32, MaxInt32; lia]).
  - pose proof (pump_body_same r) as (Ha & Hid & _). rewrite Hb in Ha, Hid.
    simpl in Ha, Hid. rewrite Ha, Hid. exact IH.
Qed.

Lemma after_runs_reachable p r : reachable r -> reachable (after_runs p r).
Proof.
  intros H. unfold after_runs.
  apply Pos.iter_invariant; [|exact H].
  intros x Hx. now apply reach_Run.
Qed.

Lemma after_runs_requestID p : forall r,
  Authenticated r ->
  Authenticated (after_runs p r)
  /\ requestID (after_runs p r) = int32 (requestID r + Z.pos p).
Proof.
  unfold after_runs.
  induction p as [|p IH] using Pos.peano_ind; intros r [Hc Ha].
  - cbn [Pos.iter]. destruct (conn r) as [c|] eqn:Hr; [|contradiction].
    destruct (Run_requestID r c Hr Ha "") as (Hid & Hauth & _). auto.
  - rewrite Pos.iter_succ.
    destruct (IH r (conj Hc Ha)) as ([Hc' Ha'] & Hid').
    destruct (conn (Pos.iter (fun r0 => snd (Run "" r0)) r p)) as [c|] eqn:Hr;
      [|contradiction].
    destruct (Run_requestID _ c Hr Ha' "") as (Hid & Hauth & _).
    split; [exact Hauth|].
    rewrite Hid, Hid', GoIntFacts.int32_add_l. f_equal. lia.
Qed.

(** C5 (as amended). A [Run] on a connected and authenticated session
    increments the counter by exactly 1 in [int32] arithmetic and writes
    the new value as the request ID of its packet; while the counter is
    below 2147483647 the new value is the old one plus 1, so the counter
    increases from call to call; the first [Run] after a [Login] that
    returned nil transmits the request ID 1; [Login] leaves the counter
    alone and the request ID of its packet is 0. *)
Theorem requestID_counter (command : string) :
  (forall r c,
      conn r = Some c -> authSuccess r = true ->
      requestID (snd (Run command r)) = int32 (requestID r + 1)
      /\ (write_succeeds c ->
          wire (snd (Run command r))
          = outgoing c
            ++ PutUint32 (10 + Z.of_nat (String.length command))
            ++ PutUint32 (int32 (requestID r + 1)) ++ PutUint32 2
            ++ list_byte_of_string command ++ [x00] ++ [x00]))
  /\ (forall r c,
        conn r = Some c -> authSuccess r = true ->
        MinInt32 <= requestID r < MaxInt32 ->
        requestID (snd (Run command r)) = requestID r + 1
        /\ requestID r < requestID (snd (Run command r)))
  /\ (forall password r r1 n r2 c2,
        reachable r -> Login password r = (Val tt, r1) ->
        pump n r1 = (Looping, r2) ->
        conn r2 = Some c2 ->
        requestID (snd (Run command r2)) = 1
        /\ (write_succeeds c2 ->
            wire (snd (Run command r2))
            = outgoing c2
              ++ PutUint32 (10 + Z.of_nat (String.length command))
              ++ PutUint32 1 ++ PutUint32 2
              ++ list_byte_of_string command ++ [x00] ++ [x00]))
  /\ (forall password r,
        requestID (snd (Login password r)) = requestID r)
  /\ (forall password r c,
        conn r = Some c -> authSuccess r = false -> write_succeeds c ->
        wire (snd (Login password r))
        = outgoing c
          ++ PutUint32 (10 + Z.of_nat (String.length password))
          ++ PutUint32 0 ++ PutUint32 3
          ++ list_byte_of_string password ++ [x00] ++ [x00]).
Proof.
  split; [|split; [|split; [|split]]].
  - intros r c Hc Ha. split.
    + apply (Run_requestID r c Hc Ha command).
    + intros Hw. destruct (Run_wire r c Hc Ha command Hw) as [_ H].
      rewrite H, Run_packet_layout. reflexivity.
  - intros r c Hc Ha Hr.
    destruct (Run_requestID r c Hc Ha command) as (Hid & _).
    rewrite Hid, GoIntFacts.int32_id; unfold MinInt32, MaxInt32 in *; lia.
  - intros password r r1 n r2 c2 Hreach HL Hp Hc2.
    pose proof (Login_success _ _ _ HL) as ([_ Hr] & [_ Ha1] & _ & Hid1).
    destruct (reachable_invariant r Hreach) as [Hzero _].
    pose proof (pump_same n r1) as (Ha2 & Hid2 & _).
    rewrite Hp in Ha2, Hid2. simpl in Ha2, Hid2.
    assert (Ha : authSuccess r2 = true) by congruence.
    assert (Hid : requestID r2 = 0) by (rewrite Hid2, Hid1; auto).
    split.
    + destruct (Run_requestID r2 c2 Hc2 Ha command) as (H & _).
      rewrite H, Hid. reflexivity.
    + intros Hw. destruct (Run_wire r2 c2 Hc2 Ha command Hw) as [_ H].
      rewrite H, Hid, Run_packet_layout. reflexivity.
  - intros password r. apply Login_keeps_requestID.
  - intros password r c Hc Ha Hw.
    rewrite (Login_wire password r c Hc Ha Hw), Login_packet_layout.
    reflexivity.
Qed.

Lemma requestID_counter_witness :
  let r := mkRCON (Some (mkConn [] [] [] [] [])) [] false true 41 1 [] [] in
  (requestID (snd (Run "list" r)) = 42
   /\ requestID r < requestID (snd (Run "list" r)))
  /\ wire (snd (Run "list" r))
     = [x0e; x00; x00; x00] ++ [x2a; x00; x00; x00] ++ [x02; x00; x00; x00]
       ++ ["l"; "i"; "s"; "t"]%byte ++ [x00; x00].
Proof.
  intros r. split.
  - apply (proj1 (proj2 (requestID_counter "list")) r _ eq_refl eq_refl).
    unfold MinInt32, MaxInt32. simpl. lia.
  - apply (proj2 (proj1 (requestID_counter "list") r _ eq_refl eq_refl) I).
Defined.

(** C5, as stated, fails: the session that has logged in and called
    [Run] 2147483647 times holds the counter 2147483647, and one more
    [Run] takes the counter to -2147483648, below every value used
    before. (And a [Run] that is refused, here for want of a [Login],
    leaves the counter as it is.) *)
Lemma requestID_wraps_at_MaxInt32 :
  let accepted := [Data x0a [x00; x00; x00; x00; x00; x00; x00;
                             x02; x00; x00; x00; x00; x00]] in
  let connected := snd (Dial (inl (mkConn accepted [] [] [] [])) NewRCON) in
  let r := after_runs 2147483647 (snd (Login "pw" connected)) in
  reachable r
  /\ Authenticated r
  /\ requestID r = 2147483647
  /\ requestID (snd (Run "list" r)) = -2147483648
  /\ ~ requestID r < requestID (snd (Run "list" r))
  /\ requestID (snd (Run "list" connected)) = requestID connected.
Proof.
  intros accepted connected r.
  assert (Hlogin : Authenticated (snd (Login "pw" connected))
                   /\ requestID (snd (Login "pw" connected)) = 0).
  { split; [split|]; [discriminate | reflexivity | reflexivity]. }
  destruct Hlogin as [Hauth0 Hid0].
  destruct (after_runs_requestID 2147483647 _ Hauth0) as [Hauth Hid].
  fold r in Hauth, Hid. rewrite Hid0 in Hid.
  change (int32 (0 + 2147483647)) with 2147483647 in Hid.
  assert (Hnext : requestID (snd (Run "list" r)) = -2147483648).
  { destruct Hauth as [Hc Ha].
    destruct (conn r) as [c|] eqn:Hr; [|contradiction].
    destruct (Run_requestID r c Hr Ha "list") as (H & _).
    rewrite H, Hid. reflexivity. }
  split; [|split; [|split; [|split; [|split]]]].
  - apply after_runs_reachable. apply reach_Login, reach_Dial, reach_NewRCON.
  - exact Hauth.
  - exact Hid.
  - exact Hnext.
  - rewrite Hnext, Hid. lia.
  - reflexivity.
Qed.

(** C10. On a connected and authenticated session, a [Run] whose write
    fails returns the error of the write and still leaves the counter
    incremented: by 1 in [int32] arithmetic, which is the old value plus
    1 below 2147483647. The wire holds the bytes of the packet, with the
    incremented request ID, that went out before the failure. The session
    stays authenticated, and the next [Run] whose write succeeds puts on
    the wire a packet whose four request ID bytes are those of the old
    counter plus 2: the ID after the one of the failed call, with other
    bytes than it, so the ID of the failed call is skipped. *)
Theorem Run_failed_write_keeps_increment
    (command : string) (r : RCONClient) (c : Conn)
    (n : nat) (e : error) (w : list wr_event) :
  conn r = Some c -> authSuccess r = true ->
  writes c = WriteFail n e :: w ->
  let r' := snd (Run command r) in
  fst (Run command r) = Raise e
  /\ requestID r' = int32 (requestID r + 1)
  /\ (MinInt32 <= requestID r < MaxInt32 -> requestID r' = requestID r + 1)
  /\ Authenticated r'
  /\ wire r'
     = outgoing c
       ++ firstn n (PutUint32 (10 + Z.of_nat (String.length command))
                    ++ PutUint32 (int32 (requestID r + 1)) ++ PutUint32 2
                    ++ list_byte_of_string command ++ [x00] ++ [x00])
  /\ (forall command' c',
        conn r' = Some c' -> write_succeeds c' ->
        fst (Run command' r') = Val tt
        /\ requestID (snd (Run command' r')) = int32 (requestID r + 2)
        /\ wire (snd (Run command' r'))
           = outgoing c'
             ++ PutUint32 (10 + Z.of_nat (String.length command'))
             ++ PutUint32 (int32 (requestID r + 2)) ++ PutUint32 2
             ++ list_byte_of_string command' ++ [x00] ++ [x00]
        /\ int32 (requestID r + 2) <> int32 (requestID r + 1)
        /\ PutUint32 (int32 (requestID r + 2))
           <> PutUint32 (int32 (requestID r + 1))).
Proof.
  intros Hc Ha Hw r'.
  destruct (Run_write_fails r c Hc Ha command n e w Hw) as [Hres Hwire].
  destruct (Run_requestID r c Hc Ha command) as (Hid & Hauth & _).
  fold r' in Hid, Hauth, Hwire.
  split; [exact Hres|].
  split; [exact Hid|].
  split.
  { intros Hr. rewrite Hid, GoIntFacts.int32_id; unfold MinInt32, MaxInt32 in *; lia. }
  split; [exact Hauth|].
  split; [rewrite Hwire, Run_packet_layout; reflexivity|].
  intros command' c' Hc' Hw'.
  destruct Hauth as [_ Ha'].
  destruct (Run_wire r' c' Hc' Ha' command' Hw') as [Hrun Hnext].
  destruct (Run_requestID r' c' Hc' Ha' command') as (Hid' & _).
  assert (Hskip : int32 (requestID r' + 1) = int32 (requestID r + 2)).
  { rewrite Hid, GoIntFacts.int32_add_l. f_equal. lia. }
  assert (Hneq : int32 (requestID r + 2) <> int32 (requestID r + 1)).
  { replace (requestID r + 2) with (requestID r + 1 + 1) by lia.
    apply GoIntFacts.int32_succ_neq'. }
  split; [exact Hrun|].
  split; [rewrite Hid', Hskip; reflexivity|].
  split; [rewrite Hnext, Hskip, Run_packet_layout; reflexivity|].
  split; [exact Hneq|].
  intros Heq. apply Hneq.
  apply (f_equal Uint32) in Heq.
  rewrite <- (app_nil_r (PutUint32 (int32 (requestID r + 2)))) in Heq.
  rewrite <- (app_nil_r (PutUint32 (int32 (requestID r + 1)))) in Heq.
  rewrite !GoIntFacts.Uint32_PutUint32 in Heq.
  injection Heq as Heq.
  apply (f_equal int32) in Heq.
  rewrite !GoIntFacts.int32_uint32 in Heq.
  rewrite !(GoIntFacts.int32_id _ (GoIntFacts.int32_range _)) in Heq. exact Heq.
Qed.

Lemma Run_failed_write_keeps_increment_witness :
  let c := mkConn [] [] [WriteFail 3 (ErrNet 1)] [] [] in
  let r := mkRCON (Some c) [] false true 4 1 [] [] in
  fst (Run "list" r) = Raise (ErrNet 1)
  /\ requestID (snd (Run "list" r)) = 5
  /\ wire (snd (Run "list" r)) = [x0e; x00; x00]
  /\ wire (snd (Run "stop" (snd (Run "list" r))))
     = [x0e; x00; x00]
       ++ [x0e; x00; x00; x00] ++ [x06; x00; x00; x00] ++ [x02; x00; x00; x00]
       ++ ["s"; "t"; "o"; "p"]%byte ++ [x00; x00].
Proof.
  intros c r.
  destruct (Run_failed_write_keeps_increment "list" r c 3 (ErrNet 1) []
              eq_refl eq_refl eq_refl) as (H1 & H2 & _ & _ & H5 & H6).
  split; [exact H1|]. split; [exact H2|]. split; [exact H5|].
  destruct (H6 "stop" _ eq_refl I) as (_ & _ & Hwire & _).
  exact Hwire.
Defined.

(** *** [Close] *)

(** Two sessions that agree on the transport, the flag, the counter and
    the number of goroutines do the same from then on: the same values
    are returned, the same messages are sent. *)
Lemma Login_alike password a b :
  session_fields a = session_fields b -> pumps a = pumps b ->
  fst (Login password a) = fst (Login password b)
  /\ session_fields (snd (Login password a)) = session_fields (snd (Login password b))
  /\ pumps (snd (Login password a)) = pumps (snd (Login password b))
  /\ Messages (snd (Login password a)) = Messages a
  /\ Messages (snd (Login password b)) = Messages b.
Proof.
  unfold session_fields. intros H Hp. injection H as Hc Ha Hid.
  unfold Login. rewrite Hc, Ha.
  destruct (conn b) as [c|] eqn:Hb; [|simpl; repeat split; congruence].
  destruct (authSuccess b) eqn:Hauth; [simpl; repeat split; congruence|].
  destruct ((_ <- io_Copy (Login_packet password);; Login_response) c)
    as [[[]|e|] c1]; try (simpl; repeat split; congruence).
  destruct (conn_SetDeadline c1) as [[[]|e|] c2]; simpl; repeat split; congruence.
Qed.

Lemma Run_alike command a b :
  session_fields a = session_fields b -> pumps a = pumps b ->
  fst (Run command a) = fst (Run command b)
  /\ session_fields (snd (Run command a)) = session_fields (snd (Run command b))
  /\ pumps (snd (Run command a)) = pumps (snd (Run command b))
  /\ Messages (snd (Run command a)) = Messages a
  /\ Messages (snd (Run command b)) = Messages b.
Proof.
  unfold session_fields. intros H Hp. injection H as Hc Ha Hid.
  unfold Run. rewrite Hc, Ha.
  destruct (conn b) as [c|] eqn:Hb; [|simpl; repeat split; congruence].
  destruct (authSuccess b) eqn:Hauth; [|simpl; repeat split; congruence].
  cbn [negb set_requestID requestID]. rewrite Hid.
  destruct (io_Copy _ c) as [res c']. simpl. repeat split; congruence.
Qed.

Lemma Dial_alike dialed a b :
  session_fields a = session_fields b -> pumps a = pumps b ->
  fst (Dial dialed a) = fst (Dial dialed b)
  /\ session_fields (snd (Dial dialed a)) = session_fields (snd (Dial dialed b))
  /\ pumps (snd (Dial dialed a)) = pumps (snd (Dial dialed b))
  /\ Messages (snd (Dial dialed a)) = Messages a
  /\ Messages (snd (Dial dialed b)) = Messages b.
Proof.
  unfold session_fields. intros H Hp. injection H as Hc Ha Hid.
  unfold Dial.
  destruct dialed as [c|e]; [|simpl; repeat split; congruence].
  destruct (conn_SetDeadline c) as [[[]|e|] c']; simpl; repeat split; congruence.
Qed.

Lemma Close_alike a b :
  session_fields a = session_fields b -> pumps a = pumps b ->
  fst (Close a) = fst (Close b)
  /\ session_fields (snd (Close a)) = session_fields (snd (Close b))
  /\ pumps (snd (Close a)) = pumps (snd (Close b))
  /\ Messages (snd (Close a)) = Messages a
  /\ Messages (snd (Close b)) = Messages b.
Proof.
  unfold session_fields. intros H Hp. injection H as Hc Ha Hid.
  unfold Close. cbn [conn set_requestID set_authSuccess]. rewrite Hc.
  destruct (conn b) as [c|]; [|simpl; repeat split; congruence].
  destruct (conn_Close c) as [[[]|e|] c']; simpl; repeat split; congruence.
Qed.

Lemma pump_body_alike a b :
  session_fields a = session_fields b -> pumps a = pumps b ->
  fst (pump_body a) = fst (pump_body b)
  /\ session_fields (snd (pump_body a)) = session_fields (snd (pump_body b))
  /\ pumps (snd (pump_body a)) = pumps (snd (pump_body b))
  /\ exists sent,
       Messages (snd (pump_body a)) = Messages a ++ sent
       /\ Messages (snd (pump_body b)) = Messages b ++ sent.
Proof.
  unfold session_fields. intros H Hp. injection H as Hc Ha Hid.
  unfold pump_body, readMessage. rewrite Hc.
  destruct (conn b) as [c|] eqn:Hb.
  - destruct (readMessage_frame c) as [[[msg|]|e|] c']; simpl;
      (split; [reflexivity|]); (split; [congruence|]); (split; [congruence|]).
    + exists [msg]. split; reflexivity.
    + exists []. now rewrite !app_nil_r.
    + exists []. now rewrite !app_nil_r.
    + exists []. now rewrite !app_nil_r.
  - simpl. (split; [reflexivity|]); (split; [congruence|]); (split; [congruence|]).
    exists []. now rewrite !app_nil_r.
Qed.

Lemma step_alike ev a b :
  session_fields a = session_fields b -> pumps a = pumps b ->
  fst (step ev a) = fst (step ev b)
  /\ session_fields (snd (step ev a)) = session_fields (snd (step ev b))
  /\ pumps (snd (step ev a)) = pumps (snd (step ev b))
  /\ exists sent,
       Messages (snd (step ev a)) = Messages a ++ sent
       /\ Messages (snd (step ev b)) = Messages b ++ sent.
Proof.
  intros Hf Hp.
  assert (Hnone : forall (x y : RCONClient) (ma mb : list string),
            Messages x = ma -> Messages y = mb ->
            exists sent, Messages x = ma ++ sent /\ Messages y = mb ++ sent).
  { intros x y ma mb -> ->. exists []. now rewrite !app_nil_r. }
  destruct ev as [dialed|password|command| |]; cbn [step].
  - destruct (Dial_alike dialed a b Hf Hp) as (H1 & H2 & H3 & H4 & H5).
    destruct (Dial dialed a), (Dial dialed b). simpl in *.
    repeat split; try congruence. now apply Hnone.
  - destruct (Login_alike password a b Hf Hp) as (H1 & H2 & H3 & H4 & H5).
    destruct (Login password a), (Login password b). simpl in *.
    repeat split; try congruence. now apply Hnone.
  - destruct (Run_alike command a b Hf Hp) as (H1 & H2 & H3 & H4 & H5).
    destruct (Run command a), (Run command b). simpl in *.
    repeat split; try congruence. now apply Hnone.
  - destruct (Close_alike a b Hf Hp) as (H1 & H2 & H3 & H4 & H5).
    destruct (Close a), (Close b). simpl in *.
    repeat split; try congruence. now apply Hnone.
  - rewrite Hp. destruct (pumps b) eqn:Hpb.
    + simpl. (split; [reflexivity|]); (split; [assumption|]);
        (split; [congruence|]). now apply Hnone.
    + assert (Hp' : pumps a = pumps b) by congruence.
      destruct (pump_body_alike a b Hf Hp') as (H1 & H2 & H3 & H4).
      destruct (pump_body a), (pump_body b). simpl in *.
      (split; [congruence|]); (split; [assumption|]); (split; assumption).
Qed.

Lemma steps_alike evs : forall a b,
  session_fields a = session_fields b -> pumps a = pumps b ->
  fst (steps evs a) = fst (steps evs b)
  /\ session_fields (snd (steps evs a)) = session_fields (snd (steps evs b))
  /\ pumps (snd (steps evs a)) = pumps (snd (steps evs b))
  /\ exists sent,
       Messages (snd (steps evs a)) = Messages a ++ sent
       /\ Messages (snd (steps evs b)) = Messages b ++ sent.
Proof.
  induction evs as [|ev evs IH]; intros a b Hf Hp.
  - simpl. repeat split; try assumption. exists []. now rewrite !app_nil_r.
  - cbn [steps].
    destruct (step_alike ev a b Hf Hp) as (H1 & H2 & H3 & (s1 & Ha1 & Hb1)).
    destruct (step ev a) as [oa a1], (step ev b) as [ob b1]. simpl in *.
    destruct (IH a1 b1 H2 H3) as (I1 & I2 & I3 & (s2 & Ha2 & Hb2)).
    destruct (steps evs a1) as [osa a2], (steps evs b1) as [osb b2]. simpl in *.
    repeat split; try congruence.
    exists (s1 ++ s2). rewrite Ha2, Hb2, Ha1, Hb1, <- !app_assoc. split; reflexivity.
Qed.

(** A [Dial] that succeeds replaces the transport, whatever it was. *)
Lemma Dial_success_fields dialed a b :
  authSuccess a = authSuccess b -> requestID a = requestID b ->
  fst (Dial dialed a) = Val tt ->
  session_fields (snd (Dial dialed a)) = session_fields (snd (Dial dialed b)).
Proof.
  intros Ha Hid. unfold Dial, session_fields.
  destruct dialed as [c|e]; [|discriminate].
  destruct (conn_SetDeadline c) as [[[]|e|] c']; simpl; congruence.
Qed.

(** The three ways through [Close]. *)
Lemma Close_cases r :
  (conn r = None
   /\ Close r = (Val tt, set_conn None (set_requestID 0 (set_authSuccess false r))))
  \/ (exists c c',
        conn r = Some c /\ conn_Close c = (Val tt, c')
        /\ Close r
           = (Val tt,
              set_conn None
                (note_closed c' (set_requestID 0 (set_authSuccess false r)))))
  \/ (exists c e c',
        conn r = Some c /\ conn_Close c = (Raise e, c')
        /\ Close r
           = (Raise e,
              set_conn (Some c') (set_requestID 0 (set_authSuccess false r)))).
Proof.
  unfold Close. cbn [conn set_requestID set_authSuccess].
  destruct (conn r) as [c|]; [|left; split; reflexivity].
  right. destruct (conn_Close c) as [[[]|e|] c'] eqn:Hcl.
  - left. exists c, c'. repeat split; assumption.
  - right. exists c, e, c'. repeat split; assumption.
  - exfalso. unfold conn_Close in Hcl.
    destruct (closes c) as [|[e|] cl]; discriminate.
Qed.

(** C8 (as amended). [Close] always resets the flag and the counter. On a
    session without a transport it returns nil and the session has no
    transport afterwards. With a transport it closes it: when that
    succeeds [Close] clears the reference and returns nil, when it fails
    [Close] returns the error and keeps the reference. After a [Close]
    that returned nil a further [Close] returns nil and changes nothing,
    and the transport, the flag and the counter are those of a new
    client. After a [Close] on a session for which [Login] has started no
    goroutine, a [Dial] that succeeds yields a fully usable session
    again: the session is connected, and whatever the caller calls from
    then on, with the iterations of the goroutines that a later [Login]
    starts in between, the values returned, the fields and the messages
    sent are those of a new client after the same [Dial]. (What the
    goroutine of an earlier [Login] does after [Close], which does not
    stop it, is left out.) *)
Theorem Close_spec (r : RCONClient) :
  let r' := snd (Close r) in
  authSuccess r' = false
  /\ requestID r' = 0
  /\ (conn r = None -> fst (Close r) = Val tt /\ conn r' = None)
  /\ (forall c c',
        conn r = Some c -> conn_Close c = (Val tt, c') ->
        fst (Close r) = Val tt
        /\ conn r' = None
        /\ closedConns r' = c' :: closedConns r)
  /\ (forall c e c',
        conn r = Some c -> conn_Close c = (Raise e, c') ->
        fst (Close r) = Raise e /\ conn r' = Some c')
  /\ (fst (Close r) = Val tt ->
      Close r' = (Val tt, r') /\ session_fields r' = session_fields NewRCON)
  /\ (pumps r = 0%nat ->
      forall dialed evs,
        fst (Dial dialed r') = Val tt ->
        let again := snd (Dial dialed r') in
        let fresh := snd (Dial dialed NewRCON) in
        Connected again
        /\ fst (steps evs again) = fst (steps evs fresh)
        /\ session_fields (snd (steps evs again))
           = session_fields (snd (steps evs fresh))
        /\ pumps (snd (steps evs again)) = pumps (snd (steps evs fresh))
        /\ Messages (snd (steps evs again))
           = Messages r ++ Messages (snd (steps evs fresh))).
Proof.
  intros r'. subst r'.
  assert (Hreset : authSuccess (snd (Close r)) = false
                   /\ requestID (snd (Close r)) = 0).
  { destruct (Close_cases r) as [[_ ->] | [(c & c' & _ & _ & ->) | (c & e & c' & _ & _ & ->)]];
      split; reflexivity. }
  split; [apply Hreset|]. split; [apply Hreset|].
  split; [|split; [|split; [|split]]].
  - intros Hc.
    destruct (Close_cases r) as [[_ ->] | [(c & c' & Hc' & _) | (c & e & c' & Hc' & _)]];
      [split; reflexivity | congruence..].
  - intros c c' Hc Hcl.
    destruct (Close_cases r) as [[Hn _] | [(c0 & c1 & Hc0 & Hcl0 & ->) | (c0 & e & c1 & Hc0 & Hcl0 & _)]];
      [congruence| |congruence].
    assert (c0 = c) by congruence. subst c0.
    assert (c1 = c') by congruence. subst c1. repeat split.
  - intros c e c' Hc Hcl.
    destruct (Close_cases r) as [[Hn _] | [(c0 & c1 & Hc0 & Hcl0 & _) | (c0 & e0 & c1 & Hc0 & Hcl0 & ->)]];
      [congruence..|].
    assert (c0 = c) by congruence. subst c0.
    split; simpl; congruence.
  - intros Hok.
    destruct (Close_cases r) as [[_ H] | [(c & c' & _ & _ & H) | (c & e & c' & _ & _ & H)]];
      rewrite H in *; [split; reflexivity | split; reflexivity | discriminate].
  - intros Hp dialed evs Hd again fresh.
    destruct Hreset as [Ha Hid].
    assert (Hf : session_fields again = session_fields fresh).
    { apply Dial_success_fields; assumption. }
    assert (Hpa : pumps again = pumps fresh).
    { unfold again, fresh, Dial.
      destruct dialed as [c|e]; [|discriminate].
      destruct (conn_SetDeadline c) as [[[]|e|] c']; simpl;
        destruct (Close_cases r) as [[_ ->] | [(c0 & c1 & _ & _ & ->) | (c0 & e0 & c1 & _ & _ & ->)]];
        simpl; congruence. }
    assert (Hm : Messages again = Messages r /\ Messages fresh = []).
    { unfold again, fresh, Dial.
      destruct dialed as [c|e]; [|discriminate].
      destruct (conn_SetDeadline c) as [[[]|e|] c']; simpl;
        destruct (Close_cases r) as [[_ ->] | [(c0 & c1 & _ & _ & ->) | (c0 & e0 & c1 & _ & _ & ->)]];
        simpl; split; reflexivity. }
    destruct Hm as [Hma Hmf].
    split.
    { unfold again, Dial in *.
      destruct dialed as [c|e]; [|discriminate].
      destruct (conn_SetDeadline c) as [[[]|e|] c']; try discriminate.
      split; simpl; [discriminate | exact Ha]. }
    destruct (steps_alike evs again fresh Hf Hpa) as (H1 & H2 & H3 & (sent & Hs1 & Hs2)).
    repeat split; try assumption.
    rewrite Hs1, Hs2, Hma, Hmf. reflexivity.
Qed.

Lemma Close_spec_witness :
  let r := mkRCON (Some (mkConn [] [] [] [] [])) [] false true 3 0 [] [] in
  let accepted := [Data x0a [x00; x00; x00; x00; x00; x00; x00;
                             x02; x00; x00; x00; x00; x00]] in
  let dialed := inl (mkConn accepted [] [] [] []) in
  let again := snd (Dial dialed (snd (Close r))) in
  Close (snd (Close r)) = (Val tt, snd (Close r))
  /\ session_fields (snd (Close r)) = session_fields NewRCON
  /\ Connected again
  /\ fst (steps [Iterate; CallLogin "pw"; CallRun "list"; Iterate; CallClose] again)
     = [NoGoroutine; Returned (Val tt); Returned (Val tt);
        Iterated Looping; Returned (Val tt)].
Proof.
  intros r accepted dialed again.
  destruct (Close_spec r) as (_ & _ & _ & _ & _ & Hidem & Husable).
  destruct (Hidem eq_refl) as [H1 H2].
  split; [exact H1|]. split; [exact H2|].
  destruct (Husable eq_refl dialed
              [Iterate; CallLogin "pw"; CallRun "list"; Iterate; CallClose]
              eq_refl) as (H3 & H4 & _).
  split; [exact H3|].
  fold again in H4. rewrite H4. reflexivity.
Defined.

(** C8, as stated, fails: when the transport refuses to close, [Close]
    returns its error and the reference is not cleared, and a second
    [Close] changes the session again. *)
Lemma Close_keeps_transport_on_error :
  let c := mkConn [] [] [] [] [Some (ErrNet 1)] in
  let r := mkRCON (Some c) [] false true 3 1 [] [] in
  fst (Close r) = Raise (ErrNet 1)
  /\ conn (snd (Close r)) <> None
  /\ snd (Close (snd (Close r))) <> snd (Close r).
Proof.
  intros c r. split; [reflexivity|]. split; discriminate.
Qed.

(** *** The goroutine started by [Login] *)

Lemma set_conn_same r c : conn r = Some c -> set_conn (Some c) r = r.
Proof. destruct r; simpl; intros ->; reflexivity. Qed.

(** On a stream the peer has closed [readMessage] returns [io.EOF] and
    changes nothing. *)
Lemma readMessage_dead r c :
  conn r = Some c -> incoming c = [] -> readMessage r = (Raise EOF, r).
Proof.
  intros Hc Hi. unfold readMessage. rewrite Hc.
  unfold readMessage_frame, bind. rewrite (conn_Read_closed 3 c Hi).
  now rewrite set_conn_same.
Qed.

(** Without a transport [readMessage] panics, and so does the loop. *)
Lemma pump_without_transport n r :
  conn r = None -> pump (S n) r = (Panicked, r).
Proof.
  intros Hc. cbn [pump]. unfold pump_body, readMessage. now rewrite Hc.
Qed.

(** Whatever error [readMessage] returns, the loop prints it and goes
    on. *)
Lemma pump_body_after_error r e r' :
  readMessage r = (Raise e, r') -> pump_body r = (Looping, Println e r').
Proof. intros H. unfold pump_body. now rewrite H. Qed.

(** A whole frame in one segment: its payload, terminator included, is
    sent on [Messages]. *)
Example readMessage_whole_frame :
  let c := mkConn [Data x0b [x00; x00; x00]; Data x01 [x00; x00; x00];
                   Data x02 [x00; x00; x00]; Data "h" ["i"%byte; x00]]
                  [] [] [] [] in
  let r := mkRCON (Some c) [] false true 1 1 [] [] in
  readMessage r
  = (Val tt,
     mkRCON (Some (mkConn [] [] [] [] []))
            [String "h" (String "i" (String "000" EmptyString))]
            false true 1 1 [] []).
Proof. reflexivity. Qed.

(** No iteration of the loop closes [Messages]. *)
Lemma pump_never_closes n r :
  Messages_closed (snd (pump n r)) = Messages_closed r.
Proof. apply (pump_same n r). Qed.

(** C1 (what the code does). On a connection that the peer has closed,
    every iteration of the loop gets [io.EOF] from the read and prints
    it; after any number of iterations the loop is still running, the
    channel [Messages] is still open, and nothing else has changed. *)
Theorem pump_loops_on_dead_connection (n : nat) (r : RCONClient) (c : Conn) :
  conn r = Some c -> incoming c = [] -> Messages_closed r = false ->
  fst (pump n r) = Looping
  /\ stdout (snd (pump n r)) = stdout r ++ repeat EOF n
  /\ Messages_closed (snd (pump n r)) = false
  /\ Messages (snd (pump n r)) = Messages r
  /\ conn (snd (pump n r)) = Some c.
Proof.
  revert r. induction n as [|n IH]; intros r Hc Hi Hm.
  - cbn [pump repeat fst snd]. rewrite app_nil_r. auto.
  - cbn [pump]. unfold pump_body. rewrite (readMessage_dead r c Hc Hi).
    destruct (IH (Println EOF r) Hc Hi Hm) as (H1 & H2 & H3 & H4 & H5).
    repeat split; try assumption.
    rewrite H2. cbn [Println stdout repeat]. now rewrite <- app_assoc.
Qed.

Lemma pump_loops_on_dead_connection_witness :
  let r := mkRCON (Some (mkConn [] [] [] [] [])) [] false true 0 1 [] [] in
  fst (pump 1000 r) = Looping
  /\ stdout (snd (pump 1000 r)) = repeat EOF 1000
  /\ Messages_closed (snd (pump 1000 r)) = false.
Proof.
  intros r.
  destruct (pump_loops_on_dead_connection 1000 r _ eq_refl eq_refl eq_refl)
    as (H1 & H2 & H3 & _).
  repeat split; assumption.
Defined.

(** C2 (what the code does). When the first read of a frame returns one,
    two or three bytes, [readMessage] returns nil: nothing is sent on
    [Messages], no error is reported, and the bytes read are gone. *)
Theorem readMessage_short_read_returns_nil
    (r : RCONClient) (c : Conn) (b : byte) (bs : list byte) (rest : reader) :
  conn r = Some c -> incoming c = Data b bs :: rest ->
  (List.length bs < 3)%nat ->
  readMessage r = (Val tt, set_conn (Some (set_incoming rest c)) r)
  /\ pump_body r = (Looping, set_conn (Some (set_incoming rest c)) r).
Proof.
  intros Hc Hi Hlen.
  assert (H : readMessage r = (Val tt, set_conn (Some (set_incoming rest c)) r)).
  { unfold readMessage. rewrite Hc.
    unfold readMessage_frame, bind, conn_Read. rewrite Hi.
    destruct bs as [|b1 [|b2 [|b3 bs]]]; [reflexivity.. | simpl in Hlen; lia]. }
  split; [exact H|]. unfold pump_body. now rewrite H.
Qed.

Lemma readMessage_short_read_returns_nil_witness :
  let frame_tail := Data x00 [x00; x01; x00; x00; x00; x02; x00; x00; x00;
                              "h"%byte; "i"%byte; x00] in
  let c := mkConn [Data x0b [x00]; frame_tail] [] [] [] [] in
  let r := mkRCON (Some c) [] false true 1 1 [] [] in
  readMessage r
  = (Val tt, mkRCON (Some (mkConn [frame_tail] [] [] [] [])) [] false true 1 1 [] []).
Proof.
  intros frame_tail c r.
  apply (proj1 (readMessage_short_read_returns_nil r c x0b [x00] [frame_tail]
                  eq_refl eq_refl ltac:(simpl; lia))).
Defined.

(** The same happens at the second read, the one of the request ID. *)
Example readMessage_short_requestID :
  let c := mkConn [Data x0b [x00; x00; x00]; Data x01 [x00];
                   Data x00 [x00; x02; x00; x00; x00; "h"%byte; "i"%byte; x00]]
                  [] [] [] [] in
  let r := mkRCON (Some c) [] false true 1 1 [] [] in
  readMessage r
  = (Val tt,
     mkRCON (Some (mkConn
               [Data x00 [x00; x02; x00; x00; x00; "h"%byte; "i"%byte; x00]]
               [] [] [] []))
            [] false true 1 1 [] []).
Proof. reflexivity. Qed.

(** A frame with an empty payload (declared length 8) gives the same
    result as a short read: nil, and nothing on [Messages]. *)
Example readMessage_empty_payload :
  let c := mkConn [Data x08 [x00; x00; x00]; Data x01 [x00; x00; x00];
                   Data x02 [x00; x00; x00]] [] [] [] [] in
  let r := mkRCON (Some c) [] false true 1 1 [] [] in
  readMessage r
  = (Val tt, mkRCON (Some (mkConn [] [] [] [] [])) [] false true 1 1 [] []).
Proof. reflexivity. Qed.

(** A payload read that returns fewer bytes than declared, but at least
    one: the message sent is the buffer, the bytes read followed by
    zeros, and the rest of the payload stays in the stream. *)
Example readMessage_short_payload :
  let c := mkConn [Data x0b [x00; x00; x00; x01; x00; x00; x00;
                             x02; x00; x00; x00; "h"%byte];
                   Data "i" [x00]] [] [] [] [] in
  let r := mkRCON (Some c) [] false true 1 1 [] [] in
  readMessage r
  = (Val tt,
     mkRCON (Some (mkConn [Data "i" [x00]] [] [] [] []))
            [String "h" (String "000" (String "000" EmptyString))]
            false true 1 1 [] []).
Proof. reflexivity. Qed.

End RCONFacts.

(** * Further properties of util.go *)

Module UtilMore.
Import Stream Util UtilFacts Fmt Wire.

(** *** [ParseAddress] *)

(** The two ways through [ParseAddress]. *)
Lemma ParseAddress_cases address defaultPort :
  ((forall host port, ~ addressRegExp_matches address host port)
   /\ ParseAddress address defaultPort
      = ("", defaultPort, Some (ErrCannotParse address)))
  \/ (exists host port,
        addressRegExp_matches address host port
        /\ ParseAddress address defaultPort
           = match port with
             | EmptyString => (host, defaultPort, None)
             | String _ _ =>
                 if decimal port <=? GoInt.MaxUint16
                 then (host, decimal port, None)
                 else ("", defaultPort, Some (ErrRange port))
             end).
Proof.
  unfold ParseAddress.
  destruct (FindAllStringSubmatch_sound address)
    as [[-> Hno] | (host & port & -> & Hm)].
  - left. split; [assumption | reflexivity].
  - right. exists host, port. split; [assumption|].
    cbn [List.length nth_string nth Nat.ltb Nat.leb orb].
    destruct port as [|d port]; [reflexivity|].
    cbn [String.length Nat.ltb Nat.leb].
    inversion Hm; subst.
    rewrite ParseUint_digits by (assumption || discriminate).
    destruct (Z.leb_spec (decimal (String d port)) GoInt.MaxUint16) as [Hfit|_];
      [|reflexivity].
    rewrite uint16_decimal by assumption. reflexivity.
Qed.

Lemma decimal_nonneg s : all isDigit s = true -> 0 <= decimal s.
Proof. intros H. apply (decimal_from_grows s H 0). lia. Qed.

(** X1. Whenever [ParseAddress] returns an error, the host returned is
    empty and the port is the default port, and the error is either the
    address error for the whole text or the range error of the port's
    digits, the port being a run of one to five digits whose value is
    above 65535; it is never a syntax error of the numeric parse. *)
Theorem ParseAddress_error (address : string) (defaultPort : Z)
    (host : string) (port : Z) (e : error) :
  ParseAddress address defaultPort = (host, port, Some e) ->
  host = "" /\ port = defaultPort
  /\ (e = ErrCannotParse address
      \/ exists h digits,
           address = (h ++ ":" ++ digits)%string
           /\ all isDigit digits = true
           /\ (1 <= String.length digits <= 5)%nat
           /\ GoInt.MaxUint16 < decimal digits
           /\ e = ErrRange digits).
Proof.
  intros H.
  destruct (ParseAddress_cases address defaultPort)
    as [[_ Hr] | (h & p & Hm & Hr)]; rewrite Hr in H.
  - injection H as <- <- <-. auto.
  - destruct p as [|d p]; [discriminate|].
    destruct (Z.leb_spec (decimal (String d p)) GoInt.MaxUint16) as [|Hbig];
      [discriminate|].
    injection H as <- <- <-. split; [reflexivity|]. split; [reflexivity|].
    right. inversion Hm; subst. exists h, (String d p). auto.
Qed.

Lemma ParseAddress_error_witness :
  ParseAddress "mc.example.org:70000" 25565 = ("", 25565, Some (ErrRange "70000"))
  /\ "" = "" /\ 25565 = 25565
  /\ (ErrRange "70000" = ErrCannotParse "mc.example.org:70000"
      \/ exists h digits,
           "mc.example.org:70000" = (h ++ ":" ++ digits)%string
           /\ all isDigit digits = true
           /\ (1 <= String.length digits <= 5)%nat
           /\ GoInt.MaxUint16 < decimal digits
           /\ ErrRange "70000" = ErrRange digits).
Proof.
  split; [reflexivity|].
  apply (ParseAddress_error "mc.example.org:70000" 25565). reflexivity.
Defined.

(** X2. Whenever [ParseAddress] succeeds, the host returned is not empty
    and is made of letters, digits and dots, and either the text is the
    host alone and the port is the default port, or the text is the host,
    a colon and one to five digits, and the port is their value, at most
    65535. *)
Theorem ParseAddress_success (address : string) (defaultPort : Z)
    (host : string) (port : Z) :
  ParseAddress address defaultPort = (host, port, None) ->
  host <> "" /\ all isHostChar host = true
  /\ ((address = host /\ port = defaultPort)
      \/ exists digits,
           address = (host ++ ":" ++ digits)%string
           /\ all isDigit digits = true
           /\ (1 <= String.length digits <= 5)%nat
           /\ port = decimal digits
           /\ 0 <= port <= GoInt.MaxUint16).
Proof.
  intros H.
  destruct (ParseAddress_cases address defaultPort)
    as [[_ Hr] | (h & p & Hm & Hr)]; rewrite Hr in H; [discriminate|].
  destruct p as [|d p].
  - injection H as <- <-.
    assert (Hp : forall a x q, addressRegExp_matches a x q -> q = "" ->
                 x <> "" /\ all isHostChar x = true /\ a = x).
    { intros a x q Hq Hnil. destruct Hq as [x Hx Hall | x q Hx Hall Hlen _]; auto.
      subst q. simpl in Hlen. lia. }
    destruct (Hp _ _ _ Hm eq_refl) as (Hne & Hall & ->). auto.
  - destruct (Z.leb_spec (decimal (String d p)) GoInt.MaxUint16) as [Hfit|];
      [|discriminate].
    injection H as <- <-. inversion Hm; subst.
    split; [assumption|]. split; [assumption|].
    right. exists (String d p).
    pose proof (decimal_nonneg _ H2).
    repeat split; solve [assumption | lia].
Qed.

Lemma ParseAddress_success_witness :
  "mc.example.org" <> "" /\ all isHostChar "mc.example.org" = true
  /\ (("mc.example.org:007" = "mc.example.org" /\ 7 = 25565)
      \/ exists digits,
           "mc.example.org:007" = ("mc.example.org" ++ ":" ++ digits)%string
           /\ all isDigit digits = true
           /\ (1 <= String.length digits <= 5)%nat
           /\ 7 = decimal digits
           /\ 0 <= 7 <= GoInt.MaxUint16).
Proof.
  apply (ParseAddress_success "mc.example.org:007" 25565). reflexivity.
Defined.

Lemma all_append p a b : all p (a ++ b)%string = all p a && all p b.
Proof.
  induction a as [|c a IH]; simpl; [reflexivity|].
  rewrite IH. now rewrite andb_assoc.
Qed.

Lemma all_weaken (p q : ascii -> bool) s :
  (forall c, p c = true -> q c = true) -> all p s = true -> all q s = true.
Proof.
  intros Hpq. induction s as [|c s IH]; simpl; [reflexivity|].
  rewrite !andb_true_iff. intros [Hc Hs]. auto.
Qed.

Lemma all_In p s c :
  all p s = true -> In c (list_ascii_of_string s) -> p c = true.
Proof.
  induction s as [|a s IH]; simpl; [contradiction|].
  rewrite andb_true_iff. intros [Ha Hs] [<-|Hin]; auto.
Qed.

(** Every character of a text that matches is a letter, a digit, a dot or
    a colon. *)
Lemma addressRegExp_matches_chars address host port :
  addressRegExp_matches address host port ->
  all isAddressChar address = true.
Proof.
  assert (Hhost : forall s, all isHostChar s = true -> all isAddressChar s = true).
  { intros s. apply all_weaken. intros c Hc. unfold isAddressChar. now rewrite Hc. }
  intros [h Hne Hh | h p Hne Hh Hlen Hd].
  - auto.
  - rewrite all_append, Hhost by assumption. simpl.
    apply Hhost, all_digits_host, Hd.
Qed.

(** X3. A text that contains a character other than a letter, a digit, a
    dot or a colon (a hyphen, an underscore, a bracket, a space) is
    refused with the address error, whatever the default port. *)
Theorem ParseAddress_rejects_other_characters
    (address : string) (defaultPort : Z) (c : ascii) :
  In c (list_ascii_of_string address) -> isAddressChar c = false ->
  ParseAddress address defaultPort
  = ("", defaultPort, Some (ErrCannotParse address)).
Proof.
  intros Hin Hc.
  destruct (ParseAddress_cases address defaultPort)
    as [[_ Hr] | (h & p & Hm & _)]; [exact Hr|].
  apply addressRegExp_matches_chars in Hm.
  rewrite (all_In _ _ _ Hm Hin) in Hc. discriminate.
Qed.

Lemma ParseAddress_rejects_other_characters_witness :
  ParseAddress "my-server.example.org:25565" 25565
  = ("", 25565, Some (ErrCannotParse "my-server.example.org:25565")).
Proof.
  apply (ParseAddress_rejects_other_characters _ 25565 "-").
  - simpl. tauto.
  - reflexivity.
Defined.

(** *** The address of [Dial] read back by [ParseAddress] *)

Lemma digit_value d :
  0 <= d <= 9 ->
  isDigit (digit d) = true /\ Z.of_nat (nat_of_ascii (digit d)) - 48 = d.
Proof.
  intros Hd. unfold isDigit, digit.
  rewrite nat_ascii_embedding by lia.
  split; [|lia].
  apply andb_true_iff. split; apply Nat.leb_le; lia.
Qed.

Lemma FormatUint_loop_step fuel u acc :
  FormatUint_loop (S fuel) u acc
  = if u <? 10 then String (digit u) acc
    else FormatUint_loop fuel (u / 10) (String (digit (u mod 10)) acc).
Proof. reflexivity. Qed.

(** The digits written for a number read back after the value [m]. *)
Lemma FormatUint_loop_spec fuel : forall u acc,
  0 <= u < 10 ^ Z.of_nat (S fuel) ->
  exists ds,
    FormatUint_loop (S fuel) u acc = (ds ++ acc)%string
    /\ all isDigit ds = true
    /\ (1 <= String.length ds)%nat
    /\ (forall m, decimal_from m ds = m * 10 ^ Z.of_nat (String.length ds) + u)
    /\ u < 10 ^ Z.of_nat (String.length ds)
    /\ (String.length ds = 1%nat \/ 10 ^ (Z.of_nat (String.length ds) - 1) <= u).
Proof.
  assert (Hone : forall f u acc, 0 <= u < 10 ->
            exists ds,
              FormatUint_loop (S f) u acc = (ds ++ acc)%string
              /\ all isDigit ds = true
              /\ (1 <= String.length ds)%nat
              /\ (forall m, decimal_from m ds
                            = m * 10 ^ Z.of_nat (String.length ds) + u)
              /\ u < 10 ^ Z.of_nat (String.length ds)
              /\ (String.length ds = 1%nat
                  \/ 10 ^ (Z.of_nat (String.length ds) - 1) <= u)).
  { intros f u acc Hlt. cbn [FormatUint_loop].
    destruct (Z.ltb_spec u 10); [|lia].
    destruct (digit_value u ltac:(lia)) as [Hd Hv].
    exists (String (digit u) ""). cbn [append String.length all decimal_from].
    rewrite Hd, Hv. repeat split; auto; intros; lia. }
  induction fuel as [|fuel IH]; intros u acc Hu.
  - apply Hone. simpl in Hu. lia.
  - destruct (Z.lt_ge_cases u 10) as [Hlt|Hge]; [apply Hone; lia|].
    rewrite FormatUint_loop_step. destruct (Z.ltb_spec u 10) as [|_]; [lia|].
    + assert (Hq : 0 <= u / 10 < 10 ^ Z.of_nat (S fuel)).
      { rewrite (Nat2Z.inj_succ (S fuel)), Z.pow_succ_r in Hu by lia.
        split; [apply Z.div_pos; lia | apply Z.div_lt_upper_bound; lia]. }
      destruct (IH (u / 10) (String (digit (u mod 10)) acc) Hq)
        as (ds & Heq & Hall & Hlen & Hdec & Hub & Hlb).
      pose proof (Z.mod_pos_bound u 10 ltac:(lia)) as Hm.
      destruct (digit_value (u mod 10) ltac:(lia)) as [Hd Hv].
      exists (ds ++ String (digit (u mod 10)) "")%string.
      assert (Happ : forall a b, String.length (a ++ b)%string
                                 = (String.length a + String.length b)%nat).
      { induction a; simpl; intros; [reflexivity | now rewrite IHa]. }
      assert (Hdapp : forall a b m, decimal_from m (a ++ b)%string
                                    = decimal_from (decimal_from m a) b).
      { induction a; simpl; intros; [reflexivity | now rewrite IHa]. }
      assert (Hassoc : forall a b c, ((a ++ b) ++ c)%string = (a ++ b ++ c)%string).
      { induction a; simpl; intros; [reflexivity | now rewrite IHa]. }
      rewrite Heq, Hassoc, all_append, Hall, Happ.
      cbn [append String.length all]. rewrite Hd.
      replace (Z.of_nat (String.length ds + 1)) with (Z.succ (Z.of_nat (String.length ds)))
        by lia.
      rewrite Z.pow_succ_r by lia.
      pose proof (Z.div_mod u 10 ltac:(lia)) as Hdm.
      split; [reflexivity|]. split; [reflexivity|]. split; [lia|].
      split; [|split].
      * intros m. rewrite Hdapp, Hdec. cbn [decimal_from]. rewrite Hv. lia.
      * lia.
      * right. replace (Z.succ (Z.of_nat (String.length ds)) - 1)
          with (Z.of_nat (String.length ds)) by lia.
        destruct Hlb as [H1|Hlb].
        -- rewrite H1. simpl. lia.
        -- replace (Z.of_nat (String.length ds))
             with (Z.succ (Z.of_nat (String.length ds) - 1)) by lia.
           rewrite Z.pow_succ_r by lia. lia.
Qed.

(** The digits of a port: between one and five, and their value is the
    port. *)
Lemma FormatUint_port port :
  0 <= port <= GoInt.MaxUint16 ->
  all isDigit (FormatUint port) = true
  /\ (1 <= String.length (FormatUint port) <= 5)%nat
  /\ decimal (FormatUint port) = port.
Proof.
  unfold GoInt.MaxUint16. intros Hp.
  destruct (FormatUint_loop_spec 19 port "" ltac:(simpl; lia))
    as (ds & Heq & Hall & Hlen & Hdec & _ & Hlb).
  unfold FormatUint. rewrite Heq, append_empty_r.
  split; [assumption|]. split.
  - split; [assumption|].
    destruct Hlb as [->|Hlb]; [lia|].
    destruct (Nat.le_gt_cases (String.length ds) 5) as [|Hbig]; [assumption|].
    assert (10 ^ 5 <= 10 ^ (Z.of_nat (String.length ds) - 1))
      by (apply Z.pow_le_mono_r; lia).
    change (10 ^ 5) with 100000 in *. lia.
  - unfold decimal. rewrite Hdec. lia.
Qed.

(** X4. The address that [Dial] builds from a host and a port,
    [fmt.Sprintf("%s:%d", host, port)], is read back by [ParseAddress] as
    that host and that port, for every host made of letters, digits and
    dots and every port from 0 to 65535, whatever the default port. *)
Theorem ParseAddress_dial_address (host : string) (port defaultPort : Z) :
  host <> "" -> all isHostChar host = true ->
  0 <= port <= GoInt.MaxUint16 ->
  ParseAddress (dial_address host port) defaultPort = (host, port, None).
Proof.
  intros Hne Hh Hp.
  destruct (FormatUint_port port Hp) as (Hd & Hlen & Hval).
  assert (Hm : addressRegExp_matches (dial_address host port) host (FormatUint port))
    by (now constructor).
  destruct (ParseAddress_cases (dial_address host port) defaultPort)
    as [[Hno _] | (h & p & Hm' & Hr)]; [now apply Hno in Hm|].
  destruct (addressRegExp_matches_unique _ _ _ _ _ Hm Hm') as [<- <-].
  rewrite Hr, Hval.
  destruct (FormatUint port) as [|d ds] eqn:Hf; [simpl in Hlen; lia|].
  destruct (Z.leb_spec port GoInt.MaxUint16); [reflexivity | lia].
Qed.

Lemma ParseAddress_dial_address_witness :
  ParseAddress (dial_address "127.0.0.1" 25575) 25565 = ("127.0.0.1", 25575, None).
Proof.
  apply ParseAddress_dial_address.
  - discriminate.
  - reflexivity.
  - unfold GoInt.MaxUint16. lia.
Defined.

(** *** [readNTString] *)






End UtilMore.

(** * Further properties of the RCON client *)

Module RCONMore.
Import Stream Net RCON GoInt NetFacts RCONFacts Wire.

(** *** Computations that touch the incoming stream only *)

Lemma reads_only_ret {A} (a : A) : reads_only (ret a).
Proof. intros c. exists (incoming c). now destruct c. Qed.

Lemma reads_only_raise {A} e : reads_only (@raise A e).
Proof. intros c. exists (incoming c). now destruct c. Qed.

Lemma reads_only_crash {A} : reads_only (@crash A).
Proof. intros c. exists (incoming c). now destruct c. Qed.

Lemma reads_only_bind {A B} (m : io A) (k : A -> io B) :
  reads_only m -> (forall a, reads_only (k a)) -> reads_only (bind m k).
Proof.
  intros Hm Hk c. unfold bind. destruct (Hm c) as [i Hi].
  destruct (m c) as [[a|e|] c']; simpl in Hi; subst c'.
  - destruct (Hk a (set_incoming i c)) as [i' Hi']. exists i'.
    rewrite Hi'. reflexivity.
  - exists i. reflexivity.
  - exists i. reflexivity.
Qed.

Lemma reads_only_conn_Read k : reads_only (conn_Read k).
Proof.
  intros c. unfold conn_Read.
  destruct (Read k (incoming c)) as [[got err] i]. exists i. reflexivity.
Qed.

Lemma reads_only_ReadFull k : reads_only (ReadFull k).
Proof.
  intros c. unfold ReadFull.
  destruct (ReadFull_loop k k [] (incoming c)) as [[[got [e|]] i]|];
    [exists i; reflexivity .. |].
  exists (incoming c). now destruct c.
Qed.

Lemma reads_only_binary_Read_int32 : reads_only binary_Read_int32.
Proof.
  apply reads_only_bind; [apply reads_only_ReadFull|]. intros bs.
  destruct (Uint32 bs); [apply reads_only_ret | apply reads_only_crash].
Qed.

Lemma reads_only_make n : reads_only (make n).
Proof.
  unfold make. destruct (n <? 0); [apply reads_only_crash | apply reads_only_ret].
Qed.

Create HintDb reads_only.
#[local] Hint Resolve reads_only_ret reads_only_raise reads_only_crash
  reads_only_conn_Read reads_only_ReadFull reads_only_binary_Read_int32
  reads_only_make : reads_only.

Lemma reads_only_Login_response : reads_only Login_response.
Proof.
  unfold Login_response.
  apply reads_only_bind; [auto with reads_only|]. intros packetLength.
  apply reads_only_bind; [auto with reads_only|]. intros rid.
  destruct (rid =? -1); [auto with reads_only|].
  destruct (negb (rid =? 0)); [auto with reads_only|].
  apply reads_only_bind; [auto with reads_only|]. intros ty.
  destruct (negb (ty =? 2)); [auto with reads_only|].
  apply reads_only_bind; [auto with reads_only|]. intros n.
  apply reads_only_bind; auto with reads_only.
Qed.

Lemma reads_only_readMessage_frame : reads_only readMessage_frame.
Proof.
  unfold readMessage_frame.
  apply reads_only_bind; [auto with reads_only|]. intros got.
  destruct (List.length got <? 4)%nat; [auto with reads_only|].
  destruct (Uint16 (filled 4 got)); [|auto with reads_only].
  apply reads_only_bind; [auto with reads_only|]. intros got'.
  destruct (List.length got' <? 4)%nat; [auto with reads_only|].
  apply reads_only_bind; [auto with reads_only|]. intros ty.
  destruct (negb (ty =? 2)); [auto with reads_only|].
  apply reads_only_bind; [auto with reads_only|]. intros k.
  apply reads_only_bind; [auto with reads_only|]. intros payload.
  destruct (List.length payload <? 1)%nat; auto with reads_only.
Qed.

(** *** The goroutine only reads *)

Lemma readMessage_reads_only r c :
  conn r = Some c ->
  exists i,
    conn (snd (readMessage r)) = Some (set_incoming i c)
    /\ closedConns (snd (readMessage r)) = closedConns r
    /\ stdout (snd (readMessage r)) = stdout r
    /\ exists sent, Messages (snd (readMessage r)) = Messages r ++ sent.
Proof.
  intros Hc. unfold readMessage. rewrite Hc.
  destruct (reads_only_readMessage_frame c) as [i Hi].
  destruct (readMessage_frame c) as [[[msg|]|e|] c']; simpl in Hi; subst c';
    exists i; simpl; repeat split; eauto; exists []; now rewrite app_nil_r.
Qed.

Lemma pump_body_only_reads r c :
  conn r = Some c ->
  exists i sent printed,
    conn (snd (pump_body r)) = Some (set_incoming i c)
    /\ authSuccess (snd (pump_body r)) = authSuccess r
    /\ requestID (snd (pump_body r)) = requestID r
    /\ closedConns (snd (pump_body r)) = closedConns r
    /\ Messages (snd (pump_body r)) = Messages r ++ sent
    /\ stdout (snd (pump_body r)) = stdout r ++ printed.
Proof.
  intros Hc. unfold pump_body.
  destruct (readMessage_reads_only r c Hc) as (i & Hi & Hcl & Hout & sent & Hsent).
  destruct (readMessage_same r) as (Ha & Hid & _).
  destruct (readMessage r) as [[[]|e|] r1]; cbn [snd] in *.
  - exists i, sent, []. rewrite app_nil_r. repeat split; assumption.
  - exists i, sent, [e]. cbn [Println conn authSuccess requestID closedConns
      Messages stdout]. rewrite Hout. repeat split; assumption.
  - exists i, sent, []. rewrite app_nil_r. repeat split; assumption.
Qed.

(** X7. The goroutine started by [Login] never writes to the transport
    and never closes it: after any number of iterations the bytes on the
    wire and the outcomes planned for the writes, the deadlines and the
    closes are those from before, and so are the flag, the counter and
    the list of transports closed; [Messages] and the output have only
    grown. *)
Theorem pump_only_reads (n : nat) (r : RCONClient) (c : Conn) :
  conn r = Some c ->
  exists i sent printed,
    conn (snd (pump n r)) = Some (set_incoming i c)
    /\ authSuccess (snd (pump n r)) = authSuccess r
    /\ requestID (snd (pump n r)) = requestID r
    /\ closedConns (snd (pump n r)) = closedConns r
    /\ Messages (snd (pump n r)) = Messages r ++ sent
    /\ stdout (snd (pump n r)) = stdout r ++ printed.
Proof.
  revert r c. induction n as [|n IH]; intros r c Hc.
  - exists (incoming c), [], []. cbn [pump snd]. rewrite !app_nil_r.
    repeat split; auto. rewrite Hc. now destruct c.
  - cbn [pump].
    destruct (pump_body_only_reads r c Hc)
      as (i & sent & printed & H1 & H2 & H3 & H4 & H5 & H6).
    destruct (pump_body r) as [[|] r1]; cbn [snd] in *.
    + destruct (IH r1 _ H1)
        as (i' & sent' & printed' & K1 & K2 & K3 & K4 & K5 & K6).
      exists i', (sent ++ sent'), (printed ++ printed').
      rewrite K1, K2, K3, K4, K5, K6, H2, H3, H4, H5, H6, !app_assoc.
      repeat split.
    + exists i, sent, printed. repeat split; assumption.
Qed.

Lemma pump_only_reads_witness :
  let c := mkConn [Data x0b [x00; x00; x00; x01; x00; x00; x00; x02; x00;
                             x00; x00; "h"%byte; "i"%byte; x00]]
                  [x01; x02] [WriteFail 0 EOF] [] [] in
  let r := mkRCON (Some c) [] false true 4 1 [] [] in
  exists i sent printed,
    conn (snd (pump 3 r)) = Some (set_incoming i c)
    /\ authSuccess (snd (pump 3 r)) = authSuccess r
    /\ requestID (snd (pump 3 r)) = requestID r
    /\ closedConns (snd (pump 3 r)) = closedConns r
    /\ Messages (snd (pump 3 r)) = Messages r ++ sent
    /\ stdout (snd (pump 3 r)) = stdout r ++ printed.
Proof.
  intros c r. apply (pump_only_reads 3 r c eq_refl).
Defined.

(** *** [Dial] *)

Lemma conn_SetDeadline_ok c :
  deadline_succeeds c ->
  exists c',
    conn_SetDeadline c = (Val tt, c')
    /\ incoming c' = incoming c /\ outgoing c' = outgoing c
    /\ writes c' = writes c /\ closes c' = closes c.
Proof.
  unfold deadline_succeeds, conn_SetDeadline.
  destruct (deadlines c) as [|[e|] d]; [| contradiction |]; intros _;
    eexists; repeat split.
Qed.

(** X8. [Dial] replaces the transport and nothing else: it does not close
    the transport that was there and it leaves the flag and the counter
    alone. On a session whose flag is up, a [Dial] that succeeds is
    therefore followed by a [Run] that is accepted without a [Login]: it
    writes its packet, with the next request ID, as the first bytes on the
    new transport. *)
Theorem Dial_keeps_authentication
    (c : Conn) (r : RCONClient) (command : string) :
  authSuccess r = true ->
  deadline_succeeds c -> write_succeeds c ->
  let r' := snd (Dial (inl c) r) in
  fst (Dial (inl c) r) = Val tt
  /\ authSuccess r' = true
  /\ requestID r' = requestID r
  /\ closedConns r' = closedConns r
  /\ fst (Run command r') = Val tt
  /\ wire (snd (Run command r'))
     = outgoing c
       ++ PutUint32 (10 + Z.of_nat (String.length command))
       ++ PutUint32 (int32 (requestID r + 1)) ++ PutUint32 2
       ++ list_byte_of_string command ++ [x00] ++ [x00].
Proof.
  intros Ha Hd Hw r'. subst r'. unfold Dial.
  destruct (conn_SetDeadline_ok c Hd) as (c' & -> & _ & Hout & Hwr & _).
  cbn [fst snd]. repeat split; try assumption.
  - apply (Run_wire (set_conn (Some c') r) c' eq_refl Ha command).
    unfold write_succeeds in *. now rewrite Hwr.
  - rewrite <- Hout, <- Run_packet_layout.
    apply (Run_wire (set_conn (Some c') r) c' eq_refl Ha command).
    unfold write_succeeds in *. now rewrite Hwr.
Qed.

Lemma Dial_keeps_authentication_witness :
  let old := mkConn [] [x01] [] [] [] in
  let c := mkConn [] [] [] [] [] in
  let r := mkRCON (Some old) [] false true 7 1 [] [] in
  closedConns (snd (Dial (inl c) r)) = []
  /\ wire (snd (Run "stop" (snd (Dial (inl c) r))))
     = [x0e; x00; x00; x00] ++ [x08; x00; x00; x00] ++ [x02; x00; x00; x00]
       ++ ["s"; "t"; "o"; "p"]%byte ++ [x00; x00].
Proof.
  intros old c r.
  destruct (Dial_keeps_authentication c r "stop" eq_refl I I)
    as (_ & _ & _ & H4 & _ & H6).
  split; [exact H4 | exact H6].
Defined.

(** *** [Login] that is refused or cannot write *)

(** X9. Once a [Login] has returned nil, every further [Login], whatever
    the goroutine has read in between, returns [ErrAlreadyLoggedIn] and
    changes nothing: the password is not sent again. *)
Theorem Login_twice
    (password password' : string) (r r1 : RCONClient) (n : nat) (r2 : RCONClient) :
  Login password r = (Val tt, r1) ->
  pump n r1 = (Looping, r2) ->
  Login password' r2 = (Raise ErrAlreadyLoggedIn, r2).
Proof.
  intros HL Hp.
  destruct (Login_success _ _ _ HL) as (_ & [Hc Ha] & _).
  destruct (pump_same n r1) as (Ha2 & _ & _ & _ & Hc2).
  rewrite Hp in Ha2, Hc2. cbn [snd] in Ha2, Hc2.
  unfold Login.
  destruct (conn r2) as [c2|]; [|exfalso; apply Hc; now apply Hc2].
  now rewrite Ha2, Ha.
Qed.

Lemma Login_twice_witness :
  let accepted := [Data x0a [x00; x00; x00; x00; x00; x00; x00;
                             x02; x00; x00; x00; x00; x00]] in
  let r := set_conn (Some (mkConn accepted [] [] [] [])) NewRCON in
  Login "again" (snd (pump 2 (snd (Login "pw" r))))
  = (Raise ErrAlreadyLoggedIn, snd (pump 2 (snd (Login "pw" r)))).
Proof.
  intros accepted r.
  apply (Login_twice "pw" "again" r (snd (Login "pw" r)) 2); reflexivity.
Defined.

(** X10. When the write of the request fails, [Login] returns the error
    of the write without reading anything: the session is connected and
    not authenticated as before, the incoming stream is untouched, and
    the wire holds the bytes of the packet sent before the failure. *)
Theorem Login_write_fails
    (password : string) (r : RCONClient) (c : Conn)
    (n : nat) (e : error) (w : list wr_event) :
  conn r = Some c -> authSuccess r = false ->
  writes c = WriteFail n e :: w ->
  Login password r
  = (Raise e,
     set_conn (Some (mkConn (incoming c)
                            (outgoing c ++ firstn n (Login_packet password))
                            w (deadlines c) (closes c))) r).
Proof.
  intros Hc Ha Hw. unfold Login. rewrite Hc, Ha.
  unfold bind at 1.
  pose proof (Login_packet_nonempty password) as Hne.
  destruct (Login_packet password) as [|b l]; [congruence|].
  unfold io_Copy, conn_Write. rewrite Hw. reflexivity.
Qed.

Lemma Login_write_fails_witness :
  let c := mkConn [Data x0a []] [] [WriteFail 5 (ErrNet 32)] [] [] in
  Login "pw" (set_conn (Some c) NewRCON)
  = (Raise (ErrNet 32),
     set_conn (Some (mkConn [Data x0a []] [x0c; x00; x00; x00; x00] [] [] []))
              NewRCON).
Proof.
  intros c.
  apply (Login_write_fails "pw" (set_conn (Some c) NewRCON) c 5 (ErrNet 32) []);
    reflexivity.
Defined.

(** *** After [Close] *)

(** X11. After [Close], whatever it returned, [Run] is refused and changes
    nothing; after a [Close] that returned nil both [Run] and [Login]
    return [ErrNotConnected] and change nothing. *)
Theorem after_Close_refused (r : RCONClient) (command password : string) :
  let r' := snd (Close r) in
  snd (Run command r') = r'
  /\ (fst (Run command r') = Raise ErrNotConnected
      \/ fst (Run command r') = Raise ErrNotAuthenticated)
  /\ (fst (Close r) = Val tt ->
      Run command r' = (Raise ErrNotConnected, r')
      /\ Login password r' = (Raise ErrNotConnected, r')).
Proof.
  intros r'. subst r'.
  destruct (Close_cases r)
    as [[_ ->] | [(c & c' & _ & _ & ->) | (c & e & c' & _ & _ & ->)]];
    cbn [fst snd]; (split; [reflexivity|]); (split; [auto|]);
    intros H; try discriminate; split; reflexivity.
Qed.

(** X12. [Close] does not stop the goroutine: once a [Close] has returned
    nil, an iteration of the loop that starts afterwards calls [Read]
    through the nil transport and panics. *)
Theorem pump_panics_after_Close (r : RCONClient) (n : nat) :
  fst (Close r) = Val tt ->
  pump (S n) (snd (Close r)) = (Panicked, snd (Close r)).
Proof.
  intros Hok. apply pump_without_transport.
  destruct (Close_cases r)
    as [[_ H] | [(c & c' & _ & _ & H) | (c & e & c' & _ & _ & H)]];
    rewrite H in *; [reflexivity | reflexivity | discriminate].
Qed.

Lemma pump_panics_after_Close_witness :
  let accepted := [Data x0a [x00; x00; x00; x00; x00; x00; x00;
                             x02; x00; x00; x00; x00; x00]] in
  let r := snd (Login "pw" (set_conn (Some (mkConn accepted [] [] [] [])) NewRCON)) in
  pumps r = 1%nat
  /\ pump 1 (snd (Close r)) = (Panicked, snd (Close r)).
Proof.
  intros accepted r. split; [reflexivity|].
  apply (pump_panics_after_Close r 0). reflexivity.
Defined.

(** *** Invariants of the session *)

Lemma Login_keeps_channel password r :
  Messages_closed (snd (Login password r)) = Messages_closed r.
Proof.
  unfold Login.
  destruct (conn r) as [c|]; [|reflexivity].
  destruct (authSuccess r); [reflexivity|].
  destruct ((_ <- io_Copy (Login_packet password);; Login_response) c)
    as [[[]|e|] c1]; try reflexivity.
  destruct (conn_SetDeadline c1) as [[[]|e|] c2]; reflexivity.
Qed.

Lemma Login_flag_needs_transport password r :
  (authSuccess r = true -> conn r <> None) ->
  authSuccess (snd (Login password r)) = true ->
  conn (snd (Login password r)) <> None.
Proof.
  unfold Login. intros Hinv.
  destruct (conn r) as [c|] eqn:Hc; [|simpl; rewrite Hc; exact Hinv].
  destruct (authSuccess r);
    [simpl; intros _; rewrite Hc; discriminate|].
  destruct ((_ <- io_Copy (Login_packet password);; Login_response) c)
    as [[[]|e|] c1]; try (simpl; discriminate).
  destruct (conn_SetDeadline c1) as [[[]|e|] c2]; simpl; discriminate.
Qed.

(** X13. In every state a session can reach from a new client, by calls
    of [Dial], [Login], [Run] and [Close] with any arguments and any
    behaviour of the network and by iterations of the goroutine: the
    counter is 0 while the flag is down; the counter is an [int32]; the
    flag is up only when there is a transport; and [Messages] has not
    been closed. *)
Theorem reachable_session_invariants (r : RCONClient) :
  reachable r ->
  (authSuccess r = false -> requestID r = 0)
  /\ MinInt32 <= requestID r <= MaxInt32
  /\ (authSuccess r = true -> conn r <> None)
  /\ Messages_closed r = false.
Proof.
  intros Hr.
  destruct (reachable_invariant r Hr) as [H1 H2].
  split; [exact H1|]. split; [exact H2|]. clear H1 H2.
  induction Hr as [|d r _ IH|password r _ IH|command r _ IH|r _ IH|r r' _ IH Hp Hb].
  - split; [discriminate | reflexivity].
  - unfold Dial. destruct d as [c|e]; [|exact IH].
    destruct (conn_SetDeadline c) as [[[]|e|] c']; try exact IH.
    simpl. split; [discriminate | apply IH].
  - split.
    + apply Login_flag_needs_transport, IH.
    + rewrite Login_keeps_channel. apply IH.
  - destruct (conn r) as [c|] eqn:Hc;
      [destruct (authSuccess r) eqn:Ha|];
      try (rewrite Run_refused by auto; rewrite ?Ha, ?Hc; exact IH).
    pose proof (Run_authenticated r c Hc Ha command) as H.
    destruct (io_Copy _ c) as [res c']. rewrite H. simpl.
    split; [discriminate | apply IH].
  - destruct (Close_cases r)
      as [[_ ->] | [(c & c' & _ & _ & ->) | (c & e & c' & _ & _ & ->)]];
      simpl; (split; [discriminate | apply IH]).
  - destruct (pump_body_same r) as (Ha & _ & _ & Hm & Hc).
    rewrite Hb in Ha, Hm, Hc. cbn [snd] in Ha, Hm, Hc.
    rewrite Ha, Hm. split; [|apply IH].
    intros H Hnone. apply (proj1 IH H). now apply Hc.
Qed.

Lemma reachable_session_invariants_witness :
  let accepted := [Data x0a [x00; x00; x00; x00; x00; x00; x00;
                             x02; x00; x00; x00; x00; x00]] in
  let r := snd (Run "list" (snd (Login "pw"
                 (snd (Dial (inl (mkConn accepted [] [] [] [])) NewRCON))))) in
  requestID r = 1
  /\ MinInt32 <= requestID r <= MaxInt32
  /\ conn r <> None
  /\ Messages_closed r = false.
Proof.
  intros accepted r.
  destruct (reachable_session_invariants r) as (_ & H2 & H3 & H4).
  { apply reach_Run, reach_Login, reach_Dial, reach_NewRCON. }
  split; [reflexivity|]. split; [exact H2|]. split; [|exact H4].
  apply H3. reflexivity.
Defined.

(** X14. No call stops a goroutine, and every [Login] that returns nil
    starts one: after a [Login], a [Close], a [Dial] and a second [Login]
    that all return nil, two goroutines have been started on the session,
    which is authenticated again. *)
Theorem second_Login_second_goroutine
    (password password' : string) (dialed : Conn + error)
    (r r1 r2 r3 r4 : RCONClient) :
  Login password r = (Val tt, r1) ->
  Close r1 = (Val tt, r2) ->
  Dial dialed r2 = (Val tt, r3) ->
  Login password' r3 = (Val tt, r4) ->
  pumps r4 = S (S (pumps r)) /\ Authenticated r4.
Proof.
  intros HL1 HC HD HL2.
  destruct (Login_success _ _ _ HL1) as (_ & _ & Hp1 & _).
  destruct (Login_success _ _ _ HL2) as (_ & Hauth & Hp4 & _).
  assert (Hp2 : pumps r2 = pumps r1).
  { destruct (Close_cases r1)
      as [[_ H] | [(c & c' & _ & _ & H) | (c & e & c' & _ & _ & H)]];
      rewrite H in HC; try discriminate;
      injection HC as Heq; subst r2; reflexivity. }
  assert (Hp3 : pumps r3 = pumps r2).
  { unfold Dial in HD. destruct dialed as [c|e]; [|discriminate].
    destruct (conn_SetDeadline c) as [[[]|e|] c']; try discriminate.
    injection HD as Heq. subst r3. reflexivity. }
  split; [congruence | exact Hauth].
Qed.

Lemma second_Login_second_goroutine_witness :
  let accepted := [Data x0a [x00; x00; x00; x00; x00; x00; x00;
                             x02; x00; x00; x00; x00; x00]] in
  let c := mkConn accepted [] [] [] [] in
  let r := set_conn (Some c) NewRCON in
  let r1 := snd (Login "pw" r) in
  let r2 := snd (Close r1) in
  let r3 := snd (Dial (inl c) r2) in
  let r4 := snd (Login "pw" r3) in
  pumps r4 = 2%nat /\ Authenticated r4.
Proof.
  intros accepted c r r1 r2 r3 r4.
  apply (second_Login_second_goroutine "pw" "pw" (inl c) r r1 r2 r3 r4);
    reflexivity.
Defined.

(** *** A sequence of [Run] calls *)

Lemma Run_all_cons command commands r :
  Run_all (command :: commands) r = Run_all commands (snd (Run command r)).
Proof. reflexivity. Qed.

(** X15. On a connected and authenticated session whose writes succeed,
    a sequence of [Run] calls puts on the wire the packets of the commands
    in the order of the calls, each packet whole and with the request ID
    one above the one before, as long as the counter stays at or below
    2147483647; the counter ends up increased by the number of calls. *)
Theorem Run_all_wire (commands : list string) (r : RCONClient) (c : Conn) :
  conn r = Some c -> authSuccess r = true -> writes c = [] ->
  MinInt32 <= requestID r ->
  requestID r + Z.of_nat (List.length commands) <= MaxInt32 ->
  Authenticated (Run_all commands r)
  /\ requestID (Run_all commands r)
     = requestID r + Z.of_nat (List.length commands)
  /\ wire (Run_all commands r) = outgoing c ++ packets (requestID r) commands.
Proof.
  revert r c.
  induction commands as [|command commands IH]; intros r c Hc Ha Hw Hlo Hhi.
  - cbn [Run_all fold_left packets List.length]. rewrite app_nil_r.
    unfold Authenticated, wire. rewrite Hc, Ha.
    repeat split; [discriminate | lia].
  - rewrite Run_all_cons. cbn [List.length packets] in *.
    pose proof (Run_authenticated r c Hc Ha command) as HR.
    assert (Hws : write_succeeds c) by (unfold write_succeeds; now rewrite Hw).
    destruct (io_Copy_ok _ c
                (Run_packet_nonempty (int32 (requestID r + 1)) command) Hws)
      as (c1 & Hcopy & Hout & _ & Hw1).
    rewrite Hcopy in HR. rewrite Hw in Hw1. cbn [tl] in Hw1.
    assert (Hid : int32 (requestID r + 1) = requestID r + 1).
    { apply GoIntFacts.int32_id. unfold MinInt32, MaxInt32 in *. lia. }
    rewrite HR. cbn [snd].
    destruct (IH (set_conn (Some c1) (set_requestID (int32 (requestID r + 1)) r))
                 c1 eq_refl Ha Hw1) as (H1 & H2 & H3).
    + cbn [set_conn set_requestID requestID]. lia.
    + cbn [set_conn set_requestID requestID]. lia.
    + cbn [set_conn set_requestID requestID] in H2, H3.
      split; [exact H1|]. split; [rewrite H2; lia|].
      rewrite H3, Hout, Hid, Run_packet_layout, <- !app_assoc. reflexivity.
Qed.

Lemma Run_all_wire_witness :
  let r := mkRCON (Some (mkConn [] [] [] [] [])) [] false true 0 1 [] [] in
  requestID (Run_all ["ls"; "hi"] r) = 2
  /\ wire (Run_all ["ls"; "hi"] r)
     = ([x0c; x00; x00; x00] ++ [x01; x00; x00; x00] ++ [x02; x00; x00; x00]
        ++ ["l"; "s"]%byte ++ [x00; x00])
       ++ ([x0c; x00; x00; x00] ++ [x02; x00; x00; x00] ++ [x02; x00; x00; x00]
           ++ ["h"; "i"]%byte ++ [x00; x00]).
Proof.
  intros r.
  destruct (Run_all_wire ["ls"; "hi"] r _ eq_refl eq_refl eq_refl)
    as (_ & H2 & H3).
  - unfold MinInt32. simpl. lia.
  - unfold MaxInt32. simpl. lia.
  - split; [exact H2|]. rewrite H3. reflexivity.
Defined.

(** *** [Login]: the response *)

Lemma io_Copy_ok_exact buf c :
  buf <> [] -> write_succeeds c ->
  io_Copy buf c
  = (Val tt, mkConn (incoming c) (outgoing c ++ buf) (tl (writes c))
                    (deadlines c) (closes c)).
Proof.
  intros Hb Hw. destruct buf as [|b buf]; [congruence|].
  unfold io_Copy, conn_Write. unfold write_succeeds in Hw.
  destruct (writes c) as [|[|n e] w]; [reflexivity | reflexivity | contradiction].
Qed.

(** [Login] once its request is written: the outcome is decided by the
    response and by the change of the deadline. *)
Lemma Login_after_write password r c :
  conn r = Some c -> authSuccess r = false -> write_succeeds c ->
  let c0 := mkConn (incoming c) (outgoing c ++ Login_packet password)
                   (tl (writes c)) (deadlines c) (closes c) in
  Login password r
  = match Login_response c0 with
    | (Val _, c1) =>
        match conn_SetDeadline c1 with
        | (Val _, c2) =>
            (Val tt, go_pump (set_conn (Some c2)
                       (set_authSuccess true (set_conn (Some c1) r))))
        | (Raise e, c2) =>
            (Raise e, set_conn (Some c2)
                        (set_authSuccess true (set_conn (Some c1) r)))
        | (Crash, c2) =>
            (Crash, set_conn (Some c2)
                      (set_authSuccess true (set_conn (Some c1) r)))
        end
    | (Raise e, c1) => (Raise e, set_conn (Some c1) r)
    | (Crash, c1) => (Crash, set_conn (Some c1) r)
    end.
Proof.
  intros Hc Ha Hw c0. unfold Login. rewrite Hc, Ha.
  unfold bind at 1.
  rewrite (io_Copy_ok_exact _ c (Login_packet_nonempty password) Hw).
  reflexivity.
Qed.

(** A response that starts with a length, the request ID 0 and the type
    2, in whatever segments: what is left is the read of the rest. *)
Lemma Login_response_accepted c L i' :
  delivers (incoming c) (PutUint32 L ++ PutUint32 0 ++ PutUint32 2) i' ->
  Login_response c
  = bind (make (int32 (int32 L - 8)))
         (fun n => bind (conn_Read n) (fun _ => ret tt))
         (set_incoming i' c).
Proof.
  intros Hd.
  apply StreamFacts.delivers_app_inv in Hd as (i1 & H1 & H2).
  apply StreamFacts.delivers_app_inv in H2 as (i2 & H2 & H3).
  unfold Login_response. unfold bind at 1.
  rewrite (binary_Read_int32_delivers _ _ _ H1).
  unfold bind at 1.
  rewrite (binary_Read_int32_delivers (set_incoming i1 c) 0 i2 H2).
  change (int32 0 =? -1) with false. change (negb (int32 0 =? 0)) with false.
  cbv iota. unfold bind at 1.
  rewrite (binary_Read_int32_delivers (set_incoming i2 (set_incoming i1 c)) 2 i' H3).
  change (negb (int32 2 =? 2)) with false. cbv iota.
  reflexivity.
Qed.

(** The same with a declared length of 8 or more, and a byte to read
    when it is above 8: the response is accepted after one more read. *)
Lemma Login_response_ok c L i' :
  8 <= L <= MaxInt32 ->
  delivers (incoming c) (PutUint32 L ++ PutUint32 0 ++ PutUint32 2) i' ->
  (L = 8 \/ (exists b bs i'', i' = Data b bs :: i'')) ->
  Login_response c
  = (Val tt, set_incoming (snd (Read (Z.to_nat (L - 8)) i')) c).
Proof.
  intros HL Hd Hrest.
  rewrite (Login_response_accepted _ L i') by exact Hd.
  assert (Hlen : int32 (int32 L - 8) = L - 8).
  { unfold MaxInt32 in HL.
    rewrite (GoIntFacts.int32_id L) by (unfold MinInt32, MaxInt32; lia).
    apply GoIntFacts.int32_id. unfold MinInt32, MaxInt32; lia. }
  unfold bind at 1, make. rewrite Hlen.
  destruct (Z.ltb_spec (L - 8) 0) as [|_]; [lia|].
  unfold ret at 1. unfold bind, conn_Read. cbn [incoming set_incoming].
  assert (Hread : exists got i,
             Read (Z.to_nat (L - 8)) i' = (got, None, i)).
  { destruct Hrest as [-> | (b & bs & i'' & ->)].
    - exists [], i'. reflexivity.
    - destruct (Z.to_nat (L - 8)) as [|k]; [exists [], (Data b bs :: i'')|];
        eexists; eexists; reflexivity. }
  destruct Hread as (got & i & ->). reflexivity.
Qed.

(** X16. A response with the request ID 0 and the type 2 whose declared
    length is below 8 makes [Login] panic, on the allocation of the buffer
    for the rest of the packet: the peer can crash the client. The session
    has not been marked authenticated. *)
Theorem Login_panics_on_short_length
    (password : string) (r : RCONClient) (c : Conn) (L : Z) (i' : reader) :
  conn r = Some c -> authSuccess r = false -> write_succeeds c ->
  MinInt32 + 8 <= L < 8 ->
  delivers (incoming c) (PutUint32 L ++ PutUint32 0 ++ PutUint32 2) i' ->
  fst (Login password r) = Crash
  /\ authSuccess (snd (Login password r)) = false
  /\ pumps (snd (Login password r)) = pumps r.
Proof.
  intros Hc Ha Hw HL Hd.
  rewrite (Login_after_write password r c Hc Ha Hw). cbv zeta.
  rewrite (Login_response_accepted _ L i') by exact Hd.
  assert (Hneg : (int32 (int32 L - 8) <? 0) = true).
  { unfold MinInt32 in HL.
    rewrite (GoIntFacts.int32_id L) by (unfold MinInt32, MaxInt32; lia).
    rewrite GoIntFacts.int32_id by (unfold MinInt32, MaxInt32; lia).
    apply Z.ltb_lt. lia. }
  unfold bind at 1, make. rewrite Hneg. unfold crash. cbn [fst snd].
  repeat split; assumption.
Qed.

Lemma Login_panics_on_short_length_witness :
  let c := mkConn [Data x07 [x00; x00; x00; x00; x00; x00; x00;
                             x02; x00; x00; x00]] [] [] [] [] in
  fst (Login "pw" (set_conn (Some c) NewRCON)) = Crash.
Proof.
  intros c.
  apply (Login_panics_on_short_length "pw" (set_conn (Some c) NewRCON) c 7 []
           eq_refl eq_refl I).
  - unfold MinInt32. lia.
  - repeat constructor.
Defined.

(** X17. A response with the request ID 0, the type 2 and a declared
    length of 8 or more is accepted however its twelve header bytes are
    cut into segments, provided that a byte of the rest of the packet is
    there to read when the length is above 8: [Login] returns nil, the
    session is authenticated and one goroutine is started. The rest of the
    packet is taken with a single read of at most length-8 bytes; what
    that read leaves stays in the stream for the goroutine. *)
Theorem Login_accepts
    (password : string) (r : RCONClient) (c : Conn) (L : Z) (i' : reader) :
  conn r = Some c -> authSuccess r = false ->
  write_succeeds c -> deadline_succeeds c ->
  8 <= L <= MaxInt32 ->
  delivers (incoming c) (PutUint32 L ++ PutUint32 0 ++ PutUint32 2) i' ->
  (L = 8 \/ (exists b bs i'', i' = Data b bs :: i'')) ->
  fst (Login password r) = Val tt
  /\ Authenticated (snd (Login password r))
  /\ pumps (snd (Login password r)) = S (pumps r)
  /\ exists c',
       conn (snd (Login password r)) = Some c'
       /\ incoming c' = snd (Read (Z.to_nat (L - 8)) i')
       /\ outgoing c' = outgoing c ++ Login_packet password.
Proof.
  intros Hc Ha Hw Hdl HL Hd Hrest.
  pose proof (Login_after_write password r c Hc Ha Hw) as HLg. cbv zeta in HLg.
  match type of HLg with
  | context [Login_response ?x] =>
      rewrite (Login_response_ok x L i' HL Hd Hrest) in HLg
  end.
  match type of HLg with
  | context [conn_SetDeadline ?x] =>
      destruct (conn_SetDeadline_ok x Hdl) as (c2 & Hset & Hin & Hout & _);
      rewrite Hset in HLg
  end.
  rewrite HLg. cbn [fst snd].
  split; [reflexivity|].
  split; [split; [simpl; discriminate | reflexivity]|].
  split; [reflexivity|].
  exists c2. split; [reflexivity|]. split; assumption.
Qed.

Lemma Login_accepts_witness :
  let c := mkConn [Data x0c [x00; x00]; Data x00 [x00; x00; x00; x00];
                   Data x02 [x00; x00; x00; "o"%byte];
                   Data "k" [x00; x00]] [] [] [] [] in
  fst (Login "pw" (set_conn (Some c) NewRCON)) = Val tt
  /\ exists c',
       conn (snd (Login "pw" (set_conn (Some c) NewRCON))) = Some c'
       /\ incoming c' = [Data "k" [x00; x00]].
Proof.
  intros c.
  destruct (Login_accepts "pw" (set_conn (Some c) NewRCON) c 12
              [Data "o" []; Data "k" [x00; x00]] eq_refl eq_refl I I)
    as (H1 & _ & _ & c' & H4 & H5 & _).
  - unfold MaxInt32. lia.
  - repeat constructor.
  - right. eauto.
  - split; [exact H1|]. exists c'. split; [exact H4 | exact H5].
Defined.

(** X18. When the response is accepted but the deadline cannot be
    cleared, [Login] returns the error of [SetReadDeadline] with the flag
    already up and no goroutine started: the session counts as
    authenticated, a further [Login] is refused with
    [ErrAlreadyLoggedIn], and no response will ever be delivered. *)
Theorem Login_deadline_fails
    (password : string) (r : RCONClient) (c : Conn) (L : Z) (i' : reader)
    (e : error) (d : list (option error)) :
  conn r = Some c -> authSuccess r = false -> write_succeeds c ->
  deadlines c = Some e :: d ->
  8 <= L <= MaxInt32 ->
  delivers (incoming c) (PutUint32 L ++ PutUint32 0 ++ PutUint32 2) i' ->
  (L = 8 \/ (exists b bs i'', i' = Data b bs :: i'')) ->
  let r' := snd (Login password r) in
  fst (Login password r) = Raise e
  /\ Authenticated r'
  /\ pumps r' = pumps r
  /\ forall password', Login password' r' = (Raise ErrAlreadyLoggedIn, r').
Proof.
  intros Hc Ha Hw Hdl HL Hd Hrest r'. subst r'.
  pose proof (Login_after_write password r c Hc Ha Hw) as HLg. cbv zeta in HLg.
  match type of HLg with
  | context [Login_response ?x] =>
      rewrite (Login_response_ok x L i' HL Hd Hrest) in HLg
  end.
  unfold conn_SetDeadline in HLg. cbn [deadlines set_incoming] in HLg.
  rewrite Hdl in HLg. rewrite HLg. cbn [fst snd].
  split; [reflexivity|].
  split; [split; [simpl; discriminate | reflexivity]|].
  split; [reflexivity|].
  intros password'. reflexivity.
Qed.

Lemma Login_deadline_fails_witness :
  let c := mkConn [Data x08 [x00; x00; x00; x00; x00; x00; x00;
                             x02; x00; x00; x00]] [] [] [Some (ErrNet 9)] [] in
  let r := set_conn (Some c) NewRCON in
  fst (Login "pw" r) = Raise (ErrNet 9)
  /\ Authenticated (snd (Login "pw" r))
  /\ pumps (snd (Login "pw" r)) = 0%nat.
Proof.
  intros c r.
  destruct (Login_deadline_fails "pw" r c 8 [] (ErrNet 9) [] eq_refl eq_refl I eq_refl)
    as (H1 & H2 & H3 & _).
  - unfold MaxInt32. lia.
  - repeat constructor.
  - left. reflexivity.
  - split; [exact H1|]. split; [exact H2 | exact H3].
Defined.

(** *** [Login]: the peer closes the stream during the response *)

(** [Read] on a stream that delivers [l] and then ends. *)
Lemma Read_delivers_end k r l :
  delivers r l [] -> l <> [] ->
  exists j r1,
    Read (S k) r = (firstn j l, None, r1)
    /\ (1 <= j <= S k)%nat /\ (j <= List.length l)%nat
    /\ delivers r1 (skipn j l) [].
Proof.
  intros Hd Hne.
  destruct l as [|b l]; [congruence|]. clear Hne.
  pose proof Hd as Hall.
  apply StreamFacts.delivers_cons_inv in Hd as (bs & r0 & -> & Hd).
  rename r0 into r.
  pose proof (StreamFacts.delivers_pending _ _ _ Hall) as Hpend.
  rewrite StreamFacts.Read_data.
  pose proof (StreamFacts.delivers_run k b bs r) as Hrun.
  set (got := firstn (S k) (b :: bs)) in *.
  assert (Hgot : (1 <= List.length got <= S k)%nat
                 /\ (List.length got <= List.length (b :: l))%nat).
  { unfold got. rewrite length_firstn. simpl in *. lia. }
  exists (List.length got), (requeue (skipn (S k) (b :: bs)) r).
  rewrite <- (firstn_skipn (List.length got) (b :: l)) in Hall.
  destruct (StreamFacts.delivers_app_inv _ _ _ _ Hall) as (r1 & H1 & H2).
  assert (Hl : List.length got = List.length (firstn (List.length got) (b :: l))).
  { rewrite length_firstn. lia. }
  destruct (StreamFacts.delivers_functional _ _ _ Hrun _ _ H1 Hl) as [Heq <-].
  rewrite <- Heq. repeat split; try lia. assumption.
Qed.

(** [io.ReadFull] on a stream that ends before the bytes wanted: the end
    of the stream when nothing at all was read, an unexpected end
    otherwise. *)
Lemma ReadFull_loop_truncated fuel : forall want got i l,
  delivers i l [] -> (List.length l < want)%nat -> (want <= fuel)%nat ->
  ReadFull_loop fuel want got i
  = Some (got ++ l,
          Some (if (0 <? List.length (got ++ l))%nat
                then ErrUnexpectedEOF else EOF),
          []).
Proof.
  induction fuel as [|fuel IH]; intros want got i l Hd Hl Hf; [lia|].
  destruct want as [|want]; [lia|].
  cbn [ReadFull_loop].
  destruct l as [|a l].
  - apply StreamFacts.delivers_nil_inv in Hd. subst i.
    cbn [Read List.length Nat.ltb Nat.leb].
    rewrite !app_nil_r. cbn [error_eqb]. now rewrite andb_true_r.
  - destruct (Read_delivers_end want i (a :: l) Hd ltac:(discriminate))
      as (j & i1 & -> & Hj & Hjl & Hrest).
    rewrite (IH _ _ _ (skipn j (a :: l)) Hrest).
    + rewrite <- app_assoc, firstn_skipn. reflexivity.
    + rewrite length_skipn, length_firstn. lia.
    + rewrite length_firstn. lia.
Qed.

Lemma binary_Read_int32_truncated c l :
  delivers (incoming c) l [] -> (List.length l < 4)%nat ->
  binary_Read_int32 c
  = (Raise (match l with [] => EOF | _ :: _ => ErrUnexpectedEOF end),
     set_incoming [] c).
Proof.
  intros Hd Hl. unfold binary_Read_int32, bind, ReadFull.
  rewrite (ReadFull_loop_truncated 4 4 [] _ l Hd Hl (Nat.le_refl _)).
  destruct l; reflexivity.
Qed.

Lemma binary_Read_int32_any c b0 b1 b2 b3 i' :
  delivers (incoming c) [b0; b1; b2; b3] i' ->
  exists v, binary_Read_int32 c = (Val v, set_incoming i' c).
Proof.
  intros Hd. unfold binary_Read_int32, bind.
  pose proof (ReadFull_delivers c [b0; b1; b2; b3] i' Hd) as HR.
  cbn [List.length] in HR. rewrite HR.
  cbn [Uint32]. eexists. reflexivity.
Qed.

(** The response ends within its first eight bytes. *)
Lemma Login_response_truncated c l :
  delivers (incoming c) l [] -> (List.length l < 8)%nat ->
  Login_response c
  = (Raise (if (List.length l mod 4 =? 0)%nat then EOF else ErrUnexpectedEOF),
     set_incoming [] c).
Proof.
  intros Hd Hl. unfold Login_response.
  destruct (Nat.lt_ge_cases (List.length l) 4) as [Hshort|Hlong].
  - unfold bind at 1. rewrite (binary_Read_int32_truncated c l Hd Hshort).
    destruct l as [|a [|b [|d [|e l]]]]; try reflexivity.
    simpl in Hshort. lia.
  - destruct l as [|b0 [|b1 [|b2 [|b3 l]]]]; try (simpl in Hlong; lia).
    change (b0 :: b1 :: b2 :: b3 :: l) with ([b0; b1; b2; b3] ++ l) in Hd.
    apply StreamFacts.delivers_app_inv in Hd as (i1 & H1 & H2).
    destruct (binary_Read_int32_any c b0 b1 b2 b3 i1 H1) as [v Hv].
    unfold bind at 1. rewrite Hv. unfold bind at 1.
    rewrite (binary_Read_int32_truncated (set_incoming i1 c) l H2)
      by (simpl in Hl; lia).
    destruct l as [|a [|b [|d [|e l]]]]; try reflexivity.
    simpl in Hl. lia.
Qed.

(** X19. When the peer closes the stream within the first eight bytes of
    the response, [Login] returns [io.EOF] if the stream ends between two
    fields (after 0 or 4 bytes) and [io.ErrUnexpectedEOF] if it ends
    inside a field; the session stays connected and not authenticated and
    no goroutine is started. *)
Theorem Login_truncated_response
    (password : string) (r : RCONClient) (c : Conn) (l : list byte) :
  conn r = Some c -> authSuccess r = false -> write_succeeds c ->
  delivers (incoming c) l [] -> (List.length l < 8)%nat ->
  fst (Login password r)
  = Raise (if (List.length l mod 4 =? 0)%nat then EOF else ErrUnexpectedEOF)
  /\ Connected (snd (Login password r))
  /\ pumps (snd (Login password r)) = pumps r.
Proof.
  intros Hc Ha Hw Hd Hl.
  pose proof (Login_after_write password r c Hc Ha Hw) as HLg. cbv zeta in HLg.
  match type of HLg with
  | context [Login_response ?x] =>
      rewrite (Login_response_truncated x l Hd Hl) in HLg
  end.
  rewrite HLg. cbn [fst snd].
  split; [reflexivity|]. split; [split; [simpl; discriminate | exact Ha]|].
  reflexivity.
Qed.

Lemma Login_truncated_response_witness :
  let r1 := set_conn (Some (mkConn [] [] [] [] [])) NewRCON in
  let r2 := set_conn (Some (mkConn [Data x0a [x00]; Data x00 [x00; x00]]
                                   [] [] [] [])) NewRCON in
  fst (Login "pw" r1) = Raise EOF
  /\ fst (Login "pw" r2) = Raise ErrUnexpectedEOF.
Proof.
  intros r1 r2. split.
  - apply (Login_truncated_response "pw" r1 _ [] eq_refl eq_refl I).
    + constructor.
    + simpl. lia.
  - apply (Login_truncated_response "pw" r2 _ [x0a; x00; x00; x00; x00]
             eq_refl eq_refl I).
    + repeat constructor.
    + simpl. lia.
Defined.

(** *** [readMessage] on whole frames *)

(** Two bytes of a value put its low sixteen bits together again. *)
Lemma bytes_join16 a :
  0 <= a ->
  Z.lor (a mod 256) (Z.shiftl (Z.shiftr a 8 mod 256) 8) = a mod 2 ^ 16.
Proof.
  intros Ha. apply Z.bits_inj'. intros n Hn.
  rewrite Z.lor_spec. change 256 with (2 ^ 8).
  destruct (Z.lt_ge_cases n 8) as [H8|H8].
  { rewrite !Z.mod_pow2_bits_low by lia.
    rewrite Z.shiftl_spec_low by lia. now rewrite orb_false_r. }
  rewrite Z.mod_pow2_bits_high by lia.
  rewrite Z.shiftl_spec by lia.
  destruct (Z.lt_ge_cases n 16) as [H16|H16].
  { rewrite !Z.mod_pow2_bits_low by lia.
    rewrite Z.shiftr_spec by lia. simpl. f_equal. lia. }
  rewrite !Z.mod_pow2_bits_high by lia. reflexivity.
Qed.

(** [binary.LittleEndian.Uint16] sees the low sixteen bits of what
    [PutUint32] wrote. *)
Lemma Uint16_PutUint32 v rest :
  Uint16 (PutUint32 v ++ rest) = Some (uint32 v mod 2 ^ 16).
Proof.
  unfold PutUint32, Uint16. cbn [app].
  rewrite !GoIntFacts.Z_of_byte_of_Z. f_equal.
  apply bytes_join16. apply GoIntFacts.uint32_range.
Qed.

Lemma firstn_exact {A} (l b : list A) : firstn (List.length l) (l ++ b) = l.
Proof. induction l; simpl; congruence. Qed.

Lemma skipn_exact {A} (l b : list A) : skipn (List.length l) (l ++ b) = b.
Proof. induction l; simpl; congruence. Qed.

(** A read of as many bytes as the head of a segment has. *)
Lemma conn_Read_segment c l b rest :
  incoming c = requeue (l ++ b) rest -> l <> [] ->
  conn_Read (List.length l) c = (Val l, set_incoming (requeue b rest) c).
Proof.
  intros Hi Hne. unfold conn_Read. rewrite Hi.
  destruct l as [|x l]; [congruence|].
  change (requeue ((x :: l) ++ b) rest) with (Data x (l ++ b) :: rest).
  cbn [List.length]. rewrite StreamFacts.Read_data.
  change (x :: l ++ b) with ((x :: l) ++ b).
  change (S (List.length l)) with (List.length (x :: l)).
  now rewrite firstn_exact, skipn_exact.
Qed.

Lemma delivers_requeue a : forall b rest,
  delivers (requeue (a ++ b) rest) a (requeue b rest).
Proof.
  induction a as [|x a IH]; intros b rest; [constructor|].
  change (requeue ((x :: a) ++ b) rest) with (Data x (a ++ b) :: rest).
  constructor. apply IH.
Qed.

(** The header of a frame that arrives in one segment: the size of the
    payload comes from the low sixteen bits of the length, the request ID
    is passed over, the type is compared with 2. *)
Lemma readMessage_frame_header c L rid ty payload rest :
  incoming c = requeue (response L rid ty payload) rest ->
  readMessage_frame c
  = if negb (int32 ty =? 2)
    then (Raise (ErrUnexpectedPacketType 0 (int32 ty)),
          set_incoming (requeue payload rest) c)
    else payload_step (int32 (uint32 L mod 2 ^ 16))
                      (set_incoming (requeue payload rest) c).
Proof.
  intros Hi. unfold response in Hi.
  unfold readMessage_frame. unfold bind at 1.
  pose proof (conn_Read_segment c (PutUint32 L) _ rest Hi ltac:(discriminate)) as H1.
  rewrite GoIntFacts.PutUint32_length in H1. rewrite H1.
  rewrite GoIntFacts.PutUint32_length.
  cbn [Nat.ltb Nat.leb].
  change (filled 4 (PutUint32 L)) with (PutUint32 L ++ []).
  rewrite Uint16_PutUint32.
  unfold bind at 1.
  pose proof (conn_Read_segment
                (set_incoming (requeue (PutUint32 rid ++ PutUint32 ty ++ payload) rest) c)
                (PutUint32 rid) _ rest eq_refl ltac:(discriminate)) as H2.
  rewrite GoIntFacts.PutUint32_length in H2. rewrite H2.
  rewrite GoIntFacts.PutUint32_length. cbn [Nat.ltb Nat.leb].
  unfold bind at 1.
  rewrite (binary_Read_int32_delivers _ ty (requeue payload rest))
    by apply delivers_requeue.
  destruct (negb (int32 ty =? 2)); reflexivity.
Qed.

(** One whole frame with a payload, up to the send. *)
Lemma readMessage_frame_one_frame c rid payload rest :
  incoming c = requeue (frame rid payload) rest ->
  payload <> [] -> 8 + Z.of_nat (List.length payload) <= 65535 ->
  readMessage_frame c
  = (Val (Some (string_of_list_byte payload)), set_incoming rest c).
Proof.
  intros Hi Hne Hfit.
  rewrite (readMessage_frame_header c _ rid 2 payload rest Hi).
  change (negb (int32 2 =? 2)) with false. cbv iota.
  set (L := 8 + Z.of_nat (List.length payload)) in *.
  assert (HL : int32 (uint32 L mod 2 ^ 16) = L).
  { unfold uint32. rewrite (Z.mod_small L (2 ^ 32)) by lia.
    rewrite Z.mod_small by lia.
    apply GoIntFacts.int32_id. unfold MinInt32, MaxInt32. lia. }
  unfold payload_step. rewrite HL.
  replace (int32 (L - 8)) with (Z.of_nat (List.length payload))
    by (rewrite GoIntFacts.int32_id; unfold MinInt32, MaxInt32; lia).
  unfold bind at 1, make.
  destruct (Z.ltb_spec (Z.of_nat (List.length payload)) 0) as [|_]; [lia|].
  unfold ret at 1. rewrite Nat2Z.id. unfold bind.
  rewrite (conn_Read_segment _ payload [] rest)
    by (try assumption; cbn [incoming set_incoming]; now rewrite app_nil_r).
  destruct payload as [|b payload]; [congruence|].
  cbn [List.length Nat.ltb Nat.leb]. unfold ret, filled.
  rewrite Nat.sub_diag. cbn [repeat requeue]. rewrite app_nil_r.
  reflexivity.
Qed.

(** One whole frame with a payload: the payload is sent on [Messages]. *)
Lemma readMessage_one_frame r c rid payload rest :
  conn r = Some c ->
  incoming c = requeue (frame rid payload) rest ->
  payload <> [] -> 8 + Z.of_nat (List.length payload) <= 65535 ->
  readMessage r
  = (Val tt, send_Messages (string_of_list_byte payload)
               (set_conn (Some (set_incoming rest c)) r)).
Proof.
  intros Hc Hi Hne Hfit. unfold readMessage. rewrite Hc.
  now rewrite (readMessage_frame_one_frame c rid payload rest Hi Hne Hfit).
Qed.

(** As long as the sends find their receivers the goroutine is the loop
    [pump]. *)
Lemma pump_chan_pump n : forall receives r r',
  (pump_chan receives n r = (Running, r') -> pump n r = (Looping, r'))
  /\ (pump_chan receives n r = (Dead, r') -> pump n r = (Panicked, r')).
Proof.
  induction n as [|n IH]; intros receives r r'.
  - cbn [pump_chan pump]. split; intros H; [congruence | discriminate].
  - cbn [pump_chan pump]. unfold pump_body, readMessage.
    destruct (conn r) as [c|]; [|split; intros H; [discriminate | congruence]].
    destruct (readMessage_frame c) as [[[msg|]|e|] c'].
    + destruct receives as [|k]; [split; discriminate|]. apply IH.
    + apply IH.
    + apply IH.
    + split; intros H; [discriminate | congruence].
Qed.

(** X20. When the peer's frames arrive one segment each, with the type 2,
    a payload that is not empty and a length of at most 65535 that counts
    the payload and eight bytes more, the goroutine hands the payloads to
    the receivers of [Messages] whole (terminator included), in the order
    of arrival and one per iteration, whatever the request IDs are, and
    prints nothing. The channel has no buffer: when the rest of the
    program receives as many values as there are frames, every payload
    is delivered and the stream is left at what follows the frames; when
    it receives fewer, the goroutine has delivered that many and stays
    blocked in the send of the next payload, whose frame it has taken
    from the stream, and the frames after it are not read. *)
Theorem pump_delivers_in_order
    (frames : list (Z * list byte)) (rest : reader) (receives : nat)
    (r : RCONClient) (c : Conn) :
  conn r = Some c ->
  incoming c = segments (map (fun f => frame (fst f) (snd f)) frames) rest ->
  Forall (fun f => snd f <> []
                   /\ 8 + Z.of_nat (List.length (snd f)) <= 65535) frames ->
  let payloads := map (fun f => string_of_list_byte (snd f)) frames in
  let out := pump_chan receives (List.length frames) r in
  Messages (snd out) = Messages r ++ firstn receives payloads
  /\ stdout (snd out) = stdout r
  /\ ((List.length frames <= receives)%nat ->
      fst out = Running
      /\ conn (snd out) = Some (set_incoming rest c)
      /\ pump (List.length frames) r = (Looping, snd out))
  /\ (forall msg,
        nth_error payloads receives = Some msg ->
        fst out = Blocked msg
        /\ conn (snd out)
           = Some (set_incoming
                     (segments (map (fun f => frame (fst f) (snd f))
                                    (skipn (S receives) frames)) rest) c)).
Proof.
  revert receives r c.
  induction frames as [|[rid payload] frames IH]; intros receives r c Hc Hi Hall;
    cbv zeta.
  - cbn [List.length pump_chan pump map fst snd segments fold_right] in *.
    rewrite firstn_nil, app_nil_r.
    split; [reflexivity|]. split; [reflexivity|]. split.
    + intros _. split; [reflexivity|]. split; [|reflexivity].
      rewrite Hc, <- Hi. now destruct c.
    + intros msg H. destruct receives; discriminate.
  - cbn [List.length pump_chan map fst snd segments fold_right] in *.
    inversion Hall as [|f fs [Hne Hfit] Hall']; subst.
    rewrite Hc.
    rewrite (readMessage_frame_one_frame c rid payload _ Hi Hne Hfit).
    destruct receives as [|k].
    + cbn [firstn fst snd nth_error skipn Messages set_conn stdout conn].
      rewrite app_nil_r.
      split; [reflexivity|]. split; [reflexivity|]. split; [intros H; lia|].
      intros msg H. injection H as <-. split; reflexivity.
    + match goal with |- context [pump_chan k _ ?x] => set (r1 := x) end.
      pose proof (IH k r1 _ eq_refl eq_refl Hall') as IH'. cbv zeta in IH'.
      destruct IH' as (H1 & H2 & H3 & H4).
      cbn [firstn nth_error skipn].
      split; [|split; [exact H2|split]].
      * rewrite H1. unfold r1. cbn [send_Messages Messages set_conn].
        now rewrite <- app_assoc.
      * intros Hle. destruct H3 as (Ha & Hb & Hd); [lia|].
        split; [exact Ha|]. split; [exact Hb|].
        cbn [pump]. unfold pump_body.
        rewrite (readMessage_one_frame r c rid payload _ Hc Hi Hne Hfit).
        exact Hd.
      * intros msg Hm. destruct (H4 msg Hm) as [Ha Hb].
        split; [exact Ha | exact Hb].
Qed.

Lemma pump_delivers_in_order_witness :
  let frames := [(1, ["o"%byte; "k"%byte; x00]); (1, [x00]);
                 (7, ["h"%byte; "i"%byte; x00])] in
  let c := mkConn (segments (map (fun f => frame (fst f) (snd f)) frames) [])
                  [] [] [] [] in
  let r := mkRCON (Some c) [] false true 2 1 [] [] in
  Messages (snd (pump_chan 3 3 r))
  = [ String "o" (String "k" (String "000" EmptyString));
      String "000" EmptyString;
      String "h" (String "i" (String "000" EmptyString)) ]
  /\ fst (pump_chan 3 3 r) = Running
  /\ Messages (snd (pump_chan 1 3 r))
     = [ String "o" (String "k" (String "000" EmptyString)) ]
  /\ fst (pump_chan 1 3 r) = Blocked (String "000" EmptyString).
Proof.
  intros frames c r.
  assert (Hall : Forall (fun f => snd f <> []
                   /\ 8 + Z.of_nat (List.length (snd f)) <= 65535) frames).
  { repeat constructor; simpl; (discriminate || lia). }
  destruct (pump_delivers_in_order frames [] 3 r c eq_refl eq_refl Hall)
    as (H1 & _ & H3 & _).
  destruct (pump_delivers_in_order frames [] 1 r c eq_refl eq_refl Hall)
    as (K1 & _ & _ & K4).
  split; [exact H1|].
  split; [apply H3; simpl; lia|].
  split; [exact K1|].
  apply (K4 (String "000" EmptyString)). reflexivity.
Defined.

(** X21. [readMessage] takes the size of the payload from the two low
    bytes of the length field and passes over the request ID: two frames
    that arrive in one segment and differ only in the request ID and in
    the upper half of the length are read in the same way, with the same
    result and the same state afterwards. *)
Theorem readMessage_ignores_requestID_and_high_length
    (r : RCONClient) (c : Conn) (L L' rid rid' ty : Z)
    (payload : list byte) (rest : reader) :
  conn r = Some c ->
  incoming c = requeue (response L rid ty payload) rest ->
  uint32 L mod 2 ^ 16 = uint32 L' mod 2 ^ 16 ->
  readMessage
    (set_conn (Some (set_incoming (requeue (response L' rid' ty payload) rest) c)) r)
  = readMessage r.
Proof.
  intros Hc Hi HL. unfold readMessage. rewrite Hc.
  cbn [conn set_conn].
  rewrite (readMessage_frame_header c L rid ty payload rest Hi).
  rewrite (readMessage_frame_header
             (set_incoming (requeue (response L' rid' ty payload) rest) c)
             L' rid' ty payload rest eq_refl).
  rewrite HL. reflexivity.
Qed.

Lemma readMessage_ignores_requestID_and_high_length_witness :
  let payload := ["h"%byte; "i"%byte; x00] in
  let c := mkConn (requeue (response 11 1 2 payload) []) [] [] [] [] in
  let c' := mkConn (requeue (response 65547 99 2 payload) []) [] [] [] [] in
  readMessage (mkRCON (Some c') [] false true 1 1 [] [])
  = readMessage (mkRCON (Some c) [] false true 1 1 [] []).
Proof.
  intros payload c c'.
  apply (readMessage_ignores_requestID_and_high_length
           (mkRCON (Some c) [] false true 1 1 [] []) c 11 65547 1 99 2 payload []);
    reflexivity.
Defined.

(** X22. A frame whose type is not 2 makes [readMessage] return an error
    that names 0 as the type expected, together with the type received (a
    frame of type 0 is refused with expected 0 and received 0). Nothing is
    sent on [Messages], the payload of the frame stays in the stream, and
    the goroutine prints the error and goes on to read that payload as
    the next frame. *)
Theorem readMessage_other_type
    (r : RCONClient) (c : Conn) (L rid ty : Z)
    (payload : list byte) (rest : reader) :
  conn r = Some c ->
  incoming c = requeue (response L rid ty payload) rest ->
  MinInt32 <= ty <= MaxInt32 -> ty <> 2 ->
  let r' := set_conn (Some (set_incoming (requeue payload rest) c)) r in
  readMessage r = (Raise (ErrUnexpectedPacketType 0 ty), r')
  /\ pump_body r = (Looping, Println (ErrUnexpectedPacketType 0 ty) r').
Proof.
  intros Hc Hi Hr Hne r'.
  assert (H : readMessage r = (Raise (ErrUnexpectedPacketType 0 ty), r')).
  { unfold readMessage. rewrite Hc.
    rewrite (readMessage_frame_header c L rid ty payload rest Hi).
    rewrite (GoIntFacts.int32_id ty Hr).
    destruct (Z.eqb_spec ty 2); [contradiction | reflexivity]. }
  split; [exact H|]. unfold pump_body. now rewrite H.
Qed.

Lemma readMessage_other_type_witness :
  let c := mkConn (requeue (response 11 1 0 ["h"%byte; "i"%byte; x00]) [])
                  [] [] [] [] in
  let r := mkRCON (Some c) [] false true 1 1 [] [] in
  fst (readMessage r) = Raise (ErrUnexpectedPacketType 0 0)
  /\ Messages (snd (readMessage r)) = []
  /\ conn (snd (readMessage r))
     = Some (mkConn [Data "h" ["i"%byte; x00]] [] [] [] []).
Proof.
  intros c r.
  destruct (readMessage_other_type r c 11 1 0 ["h"%byte; "i"%byte; x00] []
              eq_refl eq_refl) as [H _].
  - unfold MinInt32, MaxInt32. lia.
  - discriminate.
  - rewrite H. repeat split.
Defined.

(** X23. A frame of type 2 whose length field has its low sixteen bits
    below 8 (a declared length of 0 to 7, or of 65536 to 65543) makes
    [readMessage] panic on the allocation of the payload buffer, and the
    panic ends the goroutine. *)
Theorem readMessage_panics_on_short_length
    (r : RCONClient) (c : Conn) (L rid : Z)
    (payload : list byte) (rest : reader) :
  conn r = Some c ->
  incoming c = requeue (response L rid 2 payload) rest ->
  uint32 L mod 2 ^ 16 < 8 ->
  fst (readMessage r) = Crash
  /\ forall n, fst (pump (S n) r) = Panicked.
Proof.
  intros Hc Hi HL.
  assert (H : readMessage r
              = (Crash, set_conn (Some (set_incoming (requeue payload rest) c)) r)).
  { unfold readMessage. rewrite Hc.
    rewrite (readMessage_frame_header c L rid 2 payload rest Hi).
    change (negb (int32 2 =? 2)) with false. cbv iota.
    pose proof (Z.mod_pos_bound (uint32 L) (2 ^ 16) ltac:(lia)) as Hu.
    unfold payload_step, bind, make.
    rewrite (GoIntFacts.int32_id (uint32 L mod 2 ^ 16))
      by (unfold MinInt32, MaxInt32; lia).
    rewrite GoIntFacts.int32_id by (unfold MinInt32, MaxInt32; lia).
    destruct (Z.ltb_spec (uint32 L mod 2 ^ 16 - 8) 0); [reflexivity | lia]. }
  split; [now rewrite H|].
  intros n. cbn [pump]. unfold pump_body. now rewrite H.
Qed.

Lemma readMessage_panics_on_short_length_witness :
  let c := mkConn (requeue (response 65536 1 2 ["x"%byte]) []) [] [] [] [] in
  let r := mkRCON (Some c) [] false true 1 1 [] [] in
  fst (readMessage r) = Crash /\ fst (pump 1 r) = Panicked.
Proof.
  intros c r.
  destruct (readMessage_panics_on_short_length r c 65536 1 ["x"%byte] []
              eq_refl eq_refl) as [H1 H2].
  - vm_compute. reflexivity.
  - split; [exact H1 | exact (H2 O)].
Defined.

End RCONMore.
